(** * Transcript de-duplication of [prototype/subtitle-service.js]

    A shallow embedding of the text-cleaning methods of [SubtitleService]
    ([removeDuplicateText], [removePatternRepeats], [removeSentenceRepeats],
    [removeAdjacentDuplicates], [calculateSimilarity]) and the properties
    the specification states about them.

    Modelling conventions.
    - A JavaScript string is a list of 8-bit code units (the Latin-1 range
      of UTF-16); [is_space] and [toLowerCase] are the restrictions of the
      regular-expression class [\s] and of [String.prototype.toLowerCase]
      to that range.
    - The quotients [matches / patternLength] and [matches / maxLength] are
      exact rationals.  The source compares them with the literals 0.85 and
      0.8 only, with denominators of at most 20 (a pattern length) and at
      most 5 (the words of a fingerprint); there the correctly rounded
      double quotient lies on the same side of the rounded literal as the
      exact quotient does of the exact decimal, and 4/5 rounds to the very
      double that the literal 0.8 denotes.
    - [textLines] is an array of strings; the [null] that the first guard
      of [removeDuplicateText] also accepts is not modelled.
    - [while] loops are run with fuel; [pattern_while_total] and
      [scan_repeats_total] show that the fuel given by the callers is always
      enough. *)

From Stdlib Require Import List Arith Bool Lia Ascii String ZArith QArith.
Import ListNotations.

Local Open Scope nat_scope.

(** [String] also exports a [length]; here it is always the one of lists. *)
Abbreviation length := (@Datatypes.length _).

(** ** Strings *)

Definition jsstring := list ascii.

Definition str (s : string) : jsstring := list_ascii_of_string s.

Definition jsstring_eqb (a b : jsstring) : bool :=
  if list_eq_dec ascii_dec a b then true else false.

(** The class [\s], restricted to code units below 256: TAB, LF, VT, FF,
    CR, SPACE and NO-BREAK SPACE. *)
Definition is_space (c : ascii) : bool :=
  let n := nat_of_ascii c in
  ((9 <=? n) && (n <=? 13)) || (n =? 32) || (n =? 160).

(** The class [[.!?]]. *)
Definition is_sentence_end (c : ascii) : bool :=
  let n := nat_of_ascii c in
  (n =? 46) || (n =? 33) || (n =? 63).

(** [toLowerCase] on one code unit: A-Z, and the Latin-1 capitals
    U+00C0..U+00DE except the multiplication sign U+00D7. *)
Definition lower_char (c : ascii) : ascii :=
  let n := nat_of_ascii c in
  if ((65 <=? n) && (n <=? 90))
     || ((192 <=? n) && (n <=? 222) && negb (n =? 215))
  then ascii_of_nat (n + 32) else c.

Definition toLowerCase (s : jsstring) : jsstring := map lower_char s.

(** [s.split(re)] for a regular expression [re] of the form [[class]+]:
    the pieces between the maximal runs of characters of the class.  The
    flag [in_sep] says that the previous character belonged to a run.  An
    empty string gives one empty piece; a run at either end gives an empty
    piece there. *)
Fixpoint split_re (sep : ascii -> bool) (in_sep : bool) (s : jsstring)
  : list jsstring :=
  match s with
  | [] => [[]]
  | c :: s' =>
      if sep c then
        if in_sep then split_re sep true s' else [] :: split_re sep true s'
      else
        match split_re sep false s' with
        | piece :: rest => (c :: piece) :: rest
        | [] => [[c]]
        end
  end.

Definition split (sep : ascii -> bool) (s : jsstring) : list jsstring :=
  split_re sep false s.

Definition nonempty (s : jsstring) : bool := 0 <? length s.

(** [arr.join(sep)]. *)
Fixpoint join (sep : jsstring) (l : list jsstring) : jsstring :=
  match l with
  | [] => []
  | [x] => x
  | x :: rest => x ++ sep ++ join sep rest
  end.

Fixpoint trimStart (s : jsstring) : jsstring :=
  match s with
  | [] => []
  | c :: s' => if is_space c then trimStart s' else s
  end.

Definition trim (s : jsstring) : jsstring :=
  rev (trimStart (rev (trimStart s))).

(** [s.replace(/\s+/g, ' ')]: every maximal run of white space becomes one
    space. *)
Fixpoint collapse_ws (in_ws : bool) (s : jsstring) : jsstring :=
  match s with
  | [] => []
  | c :: s' =>
      if is_space c then
        if in_ws then collapse_ws true s' else " "%char :: collapse_ws true s'
      else c :: collapse_ws false s'
  end.

Definition replace_ws (s : jsstring) : jsstring := collapse_ws false s.

(** [text.split(/\s+/).filter(word => word.length > 0)] *)
Definition words_of (text : jsstring) : list jsstring :=
  filter nonempty (split is_space text).

(** [arr.slice(a, b)] for [a <= b]. *)
Definition slice {A} (l : list A) (a b : nat) : list A :=
  firstn (b - a) (skipn a l).

(** [x === y] where either side may be [undefined] (an index out of
    range). *)
Definition strict_eq (x y : option jsstring) : bool :=
  match x, y with
  | Some a, Some b => jsstring_eqb a b
  | None, None => true
  | _, _ => false
  end.

(** ** Loops that may run out of fuel *)

Inductive outcome (A : Type) : Type :=
| Done (a : A)
| OutOfFuel.
Arguments Done {A} a.
Arguments OutOfFuel {A}.

Definition bind {A B} (m : outcome A) (k : A -> outcome B) : outcome B :=
  match m with
  | Done a => k a
  | OutOfFuel => OutOfFuel
  end.

Notation "x <- m ;; k" := (bind m (fun x => k))
  (at level 61, m at next level, right associativity).

(** ** calculateSimilarity *)

(** [for (let i = start; i < start + k; i++) if (a[i] === b[i]) matches++] *)
Fixpoint count_matches (k i : nat) (a b : list jsstring) (matches : nat)
  : nat :=
  match k with
  | 0 => matches
  | S k' =>
      count_matches k' (S i) a b
        (if strict_eq (nth_error a i) (nth_error b i)
         then S matches else matches)
  end.

Definition ratio (num den : nat) : Q := Z.of_nat num # Pos.of_nat den.

(** Lines 375-388, on the two arrays of words. *)
Definition similarity_of_words (words1 words2 : list jsstring) : Q :=
  let maxLength := Nat.max (length words1) (length words2) in
  if maxLength =? 0 then 1%Q
  else
    let minLength := Nat.min (length words1) (length words2) in
    ratio (count_matches minLength 0 words1 words2 0) maxLength.

Definition calculateSimilarity (str1 str2 : jsstring) : Q :=
  similarity_of_words (split is_space str1) (split is_space str2).

(** ** removeAdjacentDuplicates *)

(** The [for] loop of lines 362-367, [k] iterations from index [i]. *)
Fixpoint adjacent_for (k i : nat) (words result : list jsstring)
  : list jsstring :=
  match k with
  | 0 => result
  | S k' =>
      adjacent_for k' (S i) words
        (if (i =? 0)
            || negb (jsstring_eqb (toLowerCase (nth i words []))
                       (toLowerCase (nth (i - 1) words [])))
         then result ++ [nth i words []] else result)
  end.

Definition adjacent_words (words : list jsstring) : list jsstring :=
  adjacent_for (length words) 0 words [].

Definition removeAdjacentDuplicates (text : jsstring) : jsstring :=
  join (str " ") (adjacent_words (words_of text)).

(** ** removePatternRepeats *)

(** [similarity >= 0.85] *)
Definition similar_enough (matches patternLength : nat) : bool :=
  Qle_bool (85 # 100) (ratio matches patternLength).

(** The inner [while] of lines 284-304: from [checkIndex], count the
    consecutive segments of [patternLength] words that match [pattern]. *)
Fixpoint scan_repeats (fuel : nat) (words pattern : list jsstring)
    (patternLength repeatCount checkIndex : nat) : outcome (nat * nat) :=
  match fuel with
  | 0 => OutOfFuel
  | S fuel' =>
      if checkIndex + patternLength <=? length words then
        let nextSegment := slice words checkIndex (checkIndex + patternLength) in
        let matches := count_matches patternLength 0 pattern nextSegment 0 in
        if similar_enough matches patternLength
        then scan_repeats fuel' words pattern patternLength
               (S repeatCount) (checkIndex + patternLength)
        else Done (repeatCount, checkIndex)
      else Done (repeatCount, checkIndex)
  end.

(** The [for] of lines 276-313, from [patternLength] down to 2.  The result
    is the pattern to emit and the new cursor, when a repeat was found. *)
Fixpoint try_lengths (words : list jsstring) (i patternLength : nat)
  : outcome (option (list jsstring * nat)) :=
  match patternLength with
  | 0 => Done None
  | S smaller =>
      if 2 <=? patternLength then
        if length words <=? i + patternLength then try_lengths words i smaller
        else
          let pattern := slice words i (i + patternLength) in
          rc <- scan_repeats (length words) words pattern patternLength 1
                  (i + patternLength) ;;
          if 2 <=? fst rc then Done (Some (pattern, snd rc))
          else try_lengths words i smaller
      else Done None
  end.

(** The outer [while (i < words.length)] of lines 272-319. *)
Fixpoint pattern_while (fuel : nat) (words : list jsstring) (i : nat)
    (result : list jsstring) : outcome (list jsstring) :=
  match fuel with
  | 0 => OutOfFuel
  | S fuel' =>
      if i <? length words then
        found <- try_lengths words i
                   (Nat.min 20 ((length words - i) / 2)) ;;
        match found with
        | Some (pattern, checkIndex) =>
            pattern_while fuel' words checkIndex (result ++ pattern)
        | None =>
            pattern_while fuel' words (S i) (result ++ [nth i words []])
        end
      else Done result
  end.

Definition pattern_words (words : list jsstring) : outcome (list jsstring) :=
  pattern_while (S (length words)) words 0 [].

(** The loops always finish ([pattern_words_total]), so the last branch is
    never taken. *)
Definition removePatternRepeats (text : jsstring) : jsstring :=
  let words := words_of text in
  if length words <? 4 then text
  else
    match pattern_words words with
    | Done result => join (str " ") result
    | OutOfFuel => text
    end.

(** ** removeSentenceRepeats *)

(** [text.split(/[.!?]+/).filter(s => s.trim().length > 0)] *)
Definition sentences_of (text : jsstring) : list jsstring :=
  filter (fun s => nonempty (trim s)) (split is_sentence_end text).

(** [cleanSentence.split(/\s+/).filter(w => w.length > 2)] *)
Definition content_words (sentence : jsstring) : list jsstring :=
  filter (fun w => 2 <? length w)
    (split is_space (toLowerCase (trim sentence))).

Definition fingerprint_of (sentence : jsstring) : jsstring :=
  join (str " ") (firstn 5 (content_words sentence)).

(** [similarity > 0.8] *)
Definition exceeds_threshold (similarity : Q) : bool :=
  negb (Qle_bool similarity (8 # 10)).

(** The [for ... of seenSentences] loop with its [break]. *)
Definition isDuplicate (fingerprint : jsstring) (seenSentences : list jsstring)
  : bool :=
  existsb (fun seenFingerprint =>
             exceeds_threshold (calculateSimilarity fingerprint seenFingerprint))
    seenSentences.

(** [Set.prototype.add]; a [Set] iterates in insertion order. *)
Definition set_add (x : jsstring) (s : list jsstring) : list jsstring :=
  if existsb (jsstring_eqb x) s then s else s ++ [x].

(** The state of the loop: [uniqueSentences] and [seenSentences]. *)
Definition sentence_state := (list jsstring * list jsstring)%type.

(** One iteration of the [for ... of sentences] loop, lines 332-353. *)
Definition sentence_step (st : sentence_state) (sentence : jsstring)
  : sentence_state :=
  let '(uniqueSentences, seenSentences) := st in
  let fingerprint := fingerprint_of sentence in
  if negb (isDuplicate fingerprint seenSentences)
     && (3 <=? length (content_words sentence))
  then (uniqueSentences ++ [trim sentence], set_add fingerprint seenSentences)
  else st.

Definition sentence_loop (sentences : list jsstring) (st : sentence_state)
  : sentence_state :=
  fold_left sentence_step sentences st.

Definition removeSentenceRepeats (text : jsstring) : jsstring :=
  let sentences := sentences_of text in
  if length sentences <=? 1 then text
  else
    let uniqueSentences := fst (sentence_loop sentences ([], [])) in
    join (str ". ") uniqueSentences
    ++ (if 0 <? length uniqueSentences then str "." else []).

(** ** removeDuplicateText *)

Definition removeDuplicateText (textLines : list jsstring) : jsstring :=
  if length textLines =? 0 then []
  else
    let fullText := trim (replace_ws (join (str " ") textLines)) in
    if negb (nonempty fullText) then []
    else
      let cleanText := trim (replace_ws fullText) in
      let cleanText := removePatternRepeats cleanText in
      let cleanText := removeSentenceRepeats cleanText in
      removeAdjacentDuplicates cleanText.

(** ** Notions used in the statements *)

(** The characters of the words of [l], and one more for every word: the
    length of [l] joined by single spaces, plus one. *)
Definition weight (l : list jsstring) : nat :=
  list_sum (map (fun w => S (length w)) l).

(** A word, as [words_of] produces them: not empty, no white space. *)
Definition is_word (w : jsstring) : Prop :=
  w <> [] /\ Forall (fun c => is_space c = false) w.

(** The number of positions below the length of the shorter sequence at
    which the two sequences hold the same word. *)
Definition positional_matches (a b : list jsstring) : nat :=
  length (filter (fun i => jsstring_eqb (nth i a []) (nth i b []))
            (seq 0 (Nat.min (length a) (length b)))).

(** The scorer as the specification words it. *)
Definition similarity_spec (a b : list jsstring) : Q :=
  match a, b with
  | [], [] => 1%Q
  | _, _ => ratio (positional_matches a b) (Nat.max (length a) (length b))
  end.

Definition ci_equal (a b : jsstring) : bool :=
  jsstring_eqb (toLowerCase a) (toLowerCase b).

(** The contract in the specification's words: a token is dropped when it
    is case-insensitively equal to the last token that was retained. *)
Fixpoint collapse_after (retained : jsstring) (ws : list jsstring)
  : list jsstring :=
  match ws with
  | [] => []
  | w :: ws' =>
      if ci_equal w retained then collapse_after retained ws'
      else w :: collapse_after w ws'
  end.

Definition collapse_spec (ws : list jsstring) : list jsstring :=
  match ws with
  | [] => []
  | w :: ws' => w :: collapse_after w ws'
  end.

(** What the loop does: it compares with the previous input token. *)
Fixpoint collapse_prev (prev : jsstring) (ws : list jsstring)
  : list jsstring :=
  match ws with
  | [] => []
  | w :: ws' =>
      if ci_equal w prev then collapse_prev w ws' else w :: collapse_prev w ws'
  end.

Definition blank (s : jsstring) : Prop := Forall (fun c => is_space c = true) s.

(** Empty, or beginning with a character that is not white space. *)
Definition starts_ok (s : jsstring) : Prop :=
  match s with
  | [] => True
  | c :: _ => is_space c = false
  end.

(** The fingerprint of every kept sentence is in the set of seen ones. *)
Definition registered (st : sentence_state) : Prop :=
  forall k, In k (fst st) -> In (fingerprint_of k) (snd st).

(** The decision of the specification's words: the positional overlap of the
    two complete sentences, against the threshold 0.8. *)
Definition full_overlap (candidate kept : jsstring) : Q :=
  calculateSimilarity (toLowerCase (trim candidate)) (toLowerCase (trim kept)).

(** The kept sentences by the rule of the stage: a fragment is kept,
    trimmed, when it has at least three content words and its fingerprint
    overlaps the fingerprint of no fragment kept before it by more than
    0.8.  [kept] holds the fragments kept so far. *)
Fixpoint keep_from (kept : list jsstring) (sentences : list jsstring)
  : list jsstring :=
  match sentences with
  | [] => []
  | s :: rest =>
      if (3 <=? length (content_words s))
         && forallb (fun k =>
                       negb (exceeds_threshold
                               (calculateSimilarity (fingerprint_of s)
                                  (fingerprint_of k))))
              kept
      then trim s :: keep_from (kept ++ [trim s]) rest
      else keep_from kept rest
  end.

(** The seen fingerprints are the fingerprints of the kept sentences. *)
Definition seen_agrees (st : sentence_state) : Prop :=
  forall fp, In fp (snd st) <-> In fp (map fingerprint_of (fst st)).

(** How often a character occurs in a string. *)
Definition count_char (c : ascii) (s : jsstring) : nat :=
  count_occ ascii_dec s c.

Inductive subseq {A : Type} : list A -> list A -> Prop :=
| subseq_nil : subseq [] []
| subseq_skip x l1 l2 : subseq l1 l2 -> subseq l1 (x :: l2)
| subseq_keep x l1 l2 : subseq l1 l2 -> subseq (x :: l1) (x :: l2).

#[local] Hint Constructors subseq : core.

(** The [j]-th block of [L] words counted from the cursor [i]; block 0 is
    the pattern. *)
Definition block (words : list jsstring) (i L j : nat) : list jsstring :=
  slice words (i + j * L) (i + j * L + L).

(** Block [j] lies within the stream and agrees with the pattern in at
    least 85 percent of its positions. *)
Definition block_matches (words : list jsstring) (i L j : nat) : Prop :=
  i + j * L + L <= length words
  /\ 85 * L <= 100 * positional_matches (block words i L 0) (block words i L j).

(** The pattern occurs exactly [r] times in a row: the blocks 1 to [r - 1]
    match and block [r] does not. *)
Definition occurs (words : list jsstring) (i L r : nat) : Prop :=
  (forall j, 1 <= j < r -> block_matches words i L j)
  /\ ~ block_matches words i L r.

(** The pattern lengths tried at the cursor [i]. *)
Definition candidate (words : list jsstring) (i L : nat) : Prop :=
  2 <= L <= Nat.min 20 ((length words - i) / 2).

(** The forward pass in the specification's words: what is emitted from the
    cursor [i] on. *)
Inductive collapses (words : list jsstring) : nat -> list jsstring -> Prop :=
| collapses_end i :
    length words <= i -> collapses words i []
| collapses_repeat i L r out :
    i < length words ->
    candidate words i L ->
    2 <= r -> occurs words i L r ->
    (forall L', candidate words i L' -> L < L' -> ~ block_matches words i L' 1) ->
    collapses words (i + r * L) out ->
    collapses words i (block words i L 0 ++ out)
| collapses_single i out :
    i < length words ->
    (forall L, candidate words i L -> ~ block_matches words i L 1) ->
    collapses words (S i) out ->
    collapses words i (nth i words [] :: out).

Definition token_count (text : jsstring) : nat := length (words_of text).

(** ** Further notions used in the statements *)

(** [s.trimEnd()], the second half of [trim]. *)
Definition trimEnd (s : jsstring) : jsstring := rev (trimStart (rev s)).

(** No word is case-insensitively equal to the word before it. *)
Fixpoint chain_ok (prev : jsstring) (ws : list jsstring) : Prop :=
  match ws with
  | [] => True
  | w :: ws' => ci_equal w prev = false /\ chain_ok w ws'
  end.

Definition no_adjacent_duplicates (ws : list jsstring) : Prop :=
  match ws with
  | [] => True
  | w :: ws' => chain_ok w ws'
  end.

(** The fingerprint of the later sentence [b] does not overlap the one of
    the earlier sentence [a] by more than 0.8. *)
Definition far_apart (a b : jsstring) : Prop :=
  ~ (8 # 10 < calculateSimilarity (fingerprint_of b) (fingerprint_of a))%Q.

(** Executable form of [block_matches]. *)
Definition block_matches_b (words : list jsstring) (i L j : nat) : bool :=
  (i + j * L + L <=? length words)
  && (85 * L <=? 100 * positional_matches (block words i L 0) (block words i L j)).

(** Some cursor position has a candidate pattern length whose pattern is
    followed by a matching block. *)
Definition has_repeat (words : list jsstring) : bool :=
  existsb (fun i =>
             existsb (fun L => block_matches_b words i L 1)
               (seq 2 (Nat.min 20 ((length words - i) / 2) - 1)))
    (seq 0 (length words)).

(** What the loop maintains about the kept sentences, given from which
    sentences [src] they were taken. *)
Definition kept_ok (src : list jsstring) (st : sentence_state) : Prop :=
  registered st
  /\ Forall (fun k => 3 <= length (content_words k)) (fst st)
  /\ ForallOrdPairs far_apart (fst st)
  /\ subseq (fst st) (map trim src).


(** ** extractVideoId and extractChannelId *)

Definition newline : ascii := ascii_of_nat 10.

(** [s.startsWith(prefix)] *)
Fixpoint starts_with (prefix s : jsstring) : bool :=
  match prefix, s with
  | [], _ => true
  | p :: prefix', c :: s' => Ascii.eqb p c && starts_with prefix' s'
  | _ :: _, [] => false
  end.

(** The longest prefix of characters of a class: a greedy [[class]*]. *)
Fixpoint take_while (cls : ascii -> bool) (s : jsstring) : jsstring :=
  match s with
  | [] => []
  | c :: s' => if cls c then c :: take_while cls s' else []
  end.

(** A match, at the beginning of [s], of a literal [prefix] followed by the
    group [([class]+)]; the result is the group. *)
Definition match_at (prefix : jsstring) (cls : ascii -> bool) (s : jsstring)
  : option jsstring :=
  if starts_with prefix s then
    let group := take_while cls (skipn (length prefix) s) in
    if nonempty group then Some group else None
  else None.

(** The alternatives [(?:p1|p2|...)] at one position, in their order. *)
Fixpoint first_match_at (prefixes : list jsstring) (cls : ascii -> bool)
    (s : jsstring) : option jsstring :=
  match prefixes with
  | [] => None
  | p :: ps =>
      match match_at p cls s with
      | Some group => Some group
      | None => first_match_at ps cls s
      end
  end.

(** [s.match(/(?:p1|p2|...)([class]+)/)]: the group of the leftmost match. *)
Fixpoint search (prefixes : list jsstring) (cls : ascii -> bool) (s : jsstring)
  : option jsstring :=
  match first_match_at prefixes cls s with
  | Some group => Some group
  | None =>
      match s with
      | [] => None
      | _ :: s' => search prefixes cls s'
      end
  end.

(** The class [[^&\n?#]]. *)
Definition video_group_char (c : ascii) : bool :=
  let n := nat_of_ascii c in
  negb ((n =? 38) || (n =? 10) || (n =? 63) || (n =? 35)).

(** The class [[a-zA-Z0-9_-]]. *)
Definition id_char (c : ascii) : bool :=
  let n := nat_of_ascii c in
  ((97 <=? n) && (n <=? 122)) || ((65 <=? n) && (n <=? 90))
  || ((48 <=? n) && (n <=? 57)) || (n =? 95) || (n =? 45).

(** The class [[^\/\?&]]. *)
Definition channel_group_char (c : ascii) : bool :=
  let n := nat_of_ascii c in
  negb ((n =? 47) || (n =? 63) || (n =? 38)).

(** Lines 32-45: the URL patterns first, then a bare identifier of eleven
    characters; [None] is [null]. *)
Definition extractVideoId (url : jsstring) : option jsstring :=
  match search [str "youtube.com/watch?v="; str "youtu.be/";
                str "youtube.com/embed/"] video_group_char url with
  | Some group => Some group
  | None =>
      if (length url =? 11) && forallb id_char url then Some url else None
  end.

(** The [for] loop over the patterns of lines 52-67. *)
Fixpoint first_pattern (patterns : list jsstring) (cls : ascii -> bool)
    (url : jsstring) : option jsstring :=
  match patterns with
  | [] => None
  | p :: ps =>
      match search [p] cls url with
      | Some group => Some group
      | None => first_pattern ps cls url
      end
  end.

Definition extractChannelId (url : jsstring) : option jsstring :=
  first_pattern [str "youtube.com/@"; str "youtube.com/channel/";
                 str "youtube.com/c/"; str "youtube.com/user/"]
    channel_group_char url.

(** The [videoUrl] that [downloadSubtitle] and [getChannelVideos] build
    from a video identifier. *)
Definition watch_url (videoId : jsstring) : jsstring :=
  str "https://www.youtube.com/watch?v=" ++ videoId.

(** What may follow a group: nothing, or a character outside the class. *)
Definition separated (cls : ascii -> bool) (post : jsstring) : Prop :=
  match post with
  | [] => True
  | c :: _ => cls c = false
  end.


(** ** isSimilarSentence *)

(** Lines 397-414.  [words2.includes(word)] compares strings with [===]. *)
Definition isSimilarSentence (sentence1 sentence2 : jsstring) : bool :=
  if jsstring_eqb sentence1 sentence2 then true
  else
    let words1 := split is_space sentence1 in
    let words2 := split is_space sentence2 in
    if (length words1 =? 0) || (length words2 =? 0) then false
    else
      let commonWords :=
        filter (fun word => existsb (jsstring_eqb word) words2) words1 in
      let overlapRatio1 := ratio (length commonWords) (length words1) in
      let overlapRatio2 := ratio (length commonWords) (length words2) in
      exceeds_threshold overlapRatio1 || exceeds_threshold overlapRatio2.

(** ** cleanVttFile *)

(** [s.split(d)] for a string [d] of one character: every occurrence
    separates. *)
Fixpoint split_lit (d : ascii) (s : jsstring) : list jsstring :=
  match s with
  | [] => [[]]
  | c :: s' =>
      if Ascii.eqb c d then [] :: split_lit d s'
      else
        match split_lit d s' with
        | piece :: rest => (c :: piece) :: rest
        | [] => [[c]]
        end
  end.

(** [s.includes(p)] *)
Fixpoint includes (p s : jsstring) : bool :=
  starts_with p s
  || match s with
     | [] => false
     | _ :: s' => includes p s'
     end.

Definition is_digit (c : ascii) : bool :=
  let n := nat_of_ascii c in (48 <=? n) && (n <=? 57).

(** [/^\d+$/.test(line)] *)
Definition all_digits (line : jsstring) : bool :=
  nonempty line && forallb is_digit line.

(** A line terminator, which [.] does not match. *)
Definition line_terminator (c : ascii) : bool :=
  let n := nat_of_ascii c in (n =? 10) || (n =? 13).

Definition never (c : ascii) : bool := false.

(** Whether [closer] occurs in [s] before any character of [stop]. *)
Fixpoint closes (closer : ascii) (stop : ascii -> bool) (s : jsstring) : bool :=
  match s with
  | [] => false
  | c :: s' =>
      if Ascii.eqb c closer then true
      else if stop c then false
      else closes closer stop s'
  end.

(** [s.replace(re, '')] for a global [re] that matches an [opener], then
    characters outside [stop] up to the first [closer]: [/<[^>]*>/g] with
    no [stop], [/\[.*?\]/g] and [/\(.*?\)/g] with the line terminators.
    [inside] says that the scan is within a match. *)
Fixpoint strip_delimited (opener closer : ascii) (stop : ascii -> bool)
    (inside : bool) (s : jsstring) : jsstring :=
  match s with
  | [] => []
  | c :: s' =>
      if inside then
        strip_delimited opener closer stop (negb (Ascii.eqb c closer)) s'
      else if Ascii.eqb c opener && closes closer stop s' then
        strip_delimited opener closer stop true s'
      else c :: strip_delimited opener closer stop false s'
  end.

Definition strip_tags (s : jsstring) : jsstring :=
  strip_delimited "<"%char ">"%char never false s.

Definition strip_brackets (s : jsstring) : jsstring :=
  strip_delimited "["%char "]"%char line_terminator false s.

Definition strip_parens (s : jsstring) : jsstring :=
  strip_delimited "("%char ")"%char line_terminator false s.

(** [s.replace(/pat/g, rep)] for a literal [pat]; [skip] counts the
    characters of a match that are still to be passed over. *)
Fixpoint replace_lit (pat rep : jsstring) (skip : nat) (s : jsstring)
  : jsstring :=
  match s with
  | [] => []
  | c :: s' =>
      match skip with
      | S k => replace_lit pat rep k s'
      | 0 =>
          if starts_with pat s
          then rep ++ replace_lit pat rep (length pat - 1) s'
          else c :: replace_lit pat rep 0 s'
      end
  end.

Definition decode_entities (s : jsstring) : jsstring :=
  replace_lit (str "&#39;") (str "'") 0
    (replace_lit (str "&quot;") [ascii_of_nat 34] 0
       (replace_lit (str "&gt;") (str ">") 0
          (replace_lit (str "&lt;") (str "<") 0
             (replace_lit (str "&amp;") (str "&") 0 s)))).

(** Lines 202-211. *)
Definition clean_line (line : jsstring) : jsstring :=
  trim (strip_parens (strip_brackets (decode_entities (strip_tags line)))).

(** The lines that the loop of lines 183-216 passes over. *)
Definition structural (line : jsstring) : bool :=
  includes (str "-->") line
  || negb (nonempty line) || all_digits line
  || starts_with (str "NOTE") line || starts_with (str "WEBVTT") line.

(** One iteration of that loop: what is pushed on [textLines], if
    anything. *)
Definition vtt_keep (raw : jsstring) : option jsstring :=
  let line := trim raw in
  if includes (str "-->") line then None
  else if negb (nonempty line) || all_digits line then None
  else if starts_with (str "NOTE") line || starts_with (str "WEBVTT") line
  then None
  else
    let cleanLine := clean_line line in
    if nonempty cleanLine then Some cleanLine else None.

Fixpoint vtt_text_lines (lines : list jsstring) : list jsstring :=
  match lines with
  | [] => []
  | raw :: rest =>
      match vtt_keep raw with
      | Some cleanLine => cleanLine :: vtt_text_lines rest
      | None => vtt_text_lines rest
      end
  end.

(** The loop of lines 174-179, from index [i]: one past the first blank
    line whose index is not 0. *)
Fixpoint find_header_end (i : nat) (lines : list jsstring) : option nat :=
  match lines with
  | [] => None
  | l :: rest =>
      if negb (nonempty (trim l)) && (0 <? i) then Some (i + 1)
      else find_header_end (S i) rest
  end.

Definition startIndex (lines : list jsstring) : nat :=
  match find_header_end 0 lines with
  | Some k => k
  | None => 0
  end.

(** [cleanVttFile] on the content read from the file. *)
Definition cleanVttContent (content : jsstring) : jsstring :=
  let lines := split_lit newline content in
  removeDuplicateText (vtt_text_lines (skipn (startIndex lines) lines)).

(** The characters that begin markup or an entity. *)
Definition markup_char (c : ascii) : bool :=
  let n := nat_of_ascii c in
  (n =? 60) || (n =? 38) || (n =? 91) || (n =? 40).

(** ** getChannelVideos *)

Record video : Type := {
  videoId : jsstring;
  title : jsstring;
  uploadDate : jsstring;
  url : jsstring
}.

(** [x || dflt] for [x] a string or [undefined]. *)
Definition or_default (x : option jsstring) (dflt : jsstring) : jsstring :=
  match x with
  | Some (c :: s) => c :: s
  | _ => dflt
  end.

(** Lines 489-497. *)
Definition parse_video_line (line : jsstring) : video :=
  let fields := split_lit "|"%char line in
  let id := nth 0 fields [] in
  {| videoId := id;
     title := or_default (nth_error fields 1) (str "Unknown Title");
     uploadDate := or_default (nth_error fields 2) (str "Unknown Date");
     url := watch_url id |}.

(** Lines 484-497, on the output of the listing command. *)
Definition parse_video_list (stdout : jsstring) (limit : nat) : list video :=
  map parse_video_line
    (firstn limit
       (filter (fun line => nonempty (trim line))
          (split_lit newline (trim stdout)))).

(** ** Notions used in the statements about the parsers *)

Definition lacks (d : ascii) (s : jsstring) : bool :=
  forallb (fun c => negb (Ascii.eqb c d)) s.

Definition markup_free (line : jsstring) : bool :=
  forallb (fun c => negb (markup_char c)) line.

(** One line of the listing that [getChannelVideos] asks for with
    [--print "%(id)s|%(title)s|%(upload_date)s"]. *)
Definition listing_line (entry : jsstring * jsstring * jsstring) : jsstring :=
  let '(id, ttl, date) := entry in
  join [ "|"%char ] [id; ttl; date].

(** The whole listing: one line per entry, each ended by a line feed. *)
Definition listing (entries : list (jsstring * jsstring * jsstring))
  : jsstring :=
  match entries with
  | [] => []
  | _ => join [newline] (map listing_line entries) ++ [newline]
  end.

Definition video_of (entry : jsstring * jsstring * jsstring) : video :=
  let '(id, ttl, date) := entry in
  {| videoId := id; title := ttl; uploadDate := date; url := watch_url id |}.

(** No white space and no bar in the identifier and the date, which are
    not empty; a title that is not empty and has no bar and no line feed. *)
Definition plain_token (s : jsstring) : bool :=
  nonempty s && forallb (fun c => negb (is_space c)) s && lacks "|"%char s.

Definition well_formed_entry (entry : jsstring * jsstring * jsstring) : bool :=
  let '(id, ttl, date) := entry in
  plain_token id && plain_token date
  && nonempty ttl && lacks "|"%char ttl && lacks newline ttl.

(** Not empty, with no white space at either end. *)
Definition trimmed (s : jsstring) : Prop :=
  s <> [] /\ starts_ok s /\ starts_ok (rev s).

(** * Properties *)

(** ** Strings and splitting *)

Lemma jsstring_eqb_eq (a b : jsstring) : jsstring_eqb a b = true <-> a = b.
Proof.
  unfold jsstring_eqb. destruct (list_eq_dec ascii_dec a b); split; congruence.
Qed.

Lemma jsstring_eqb_refl (a : jsstring) : jsstring_eqb a a = true.
Proof. now apply jsstring_eqb_eq. Qed.

Section SplitOn.

Variable sep : ascii -> bool.

Lemma split_re_not_nil b s : split_re sep b s <> [].
Proof.
  revert b. induction s as [|c s IH]; intro b; simpl; [discriminate|].
  destruct (sep c).
  - destruct b; [apply IH | discriminate].
  - destruct (split_re sep false s); discriminate.
Qed.

(** A character outside the class makes the flag irrelevant. *)
Lemma split_re_flag b c s :
  sep c = false -> split_re sep b (c :: s) = split_re sep false (c :: s).
Proof. intro H. simpl. now rewrite H. Qed.

(** No piece contains a character of the class. *)
Lemma split_re_pieces b s :
  Forall (Forall (fun c => sep c = false)) (split_re sep b s).
Proof.
  revert b. induction s as [|c s IH]; intro b; simpl.
  - repeat constructor.
  - destruct (sep c) eqn:E.
    + destruct b; [apply IH | constructor; [constructor | apply IH]].
    + specialize (IH false). destruct (split_re sep false s) as [|p r].
      * repeat constructor. exact E.
      * inversion IH; subst. constructor; [constructor|]; assumption.
Qed.

(** A string without characters of the class is its own single piece. *)
Lemma split_re_none b s :
  Forall (fun c => sep c = false) s -> split_re sep b s = [s].
Proof.
  intro H. revert b. induction H as [|c s Hc _ IH]; intro b; simpl;
    [reflexivity|].
  rewrite Hc, IH. reflexivity.
Qed.

Lemma split_re_app w s :
  Forall (fun c => sep c = false) w ->
  split_re sep false (w ++ s)
  = match split_re sep false s with
    | p :: r => (w ++ p) :: r
    | [] => [w]
    end.
Proof.
  induction 1 as [|c w Hc _ IH]; simpl.
  - destruct (split_re sep false s) eqn:E; [|reflexivity].
    now apply split_re_not_nil in E.
  - rewrite Hc, IH. destruct (split_re sep false s); reflexivity.
Qed.

End SplitOn.

Lemma weight_app l1 l2 : weight (l1 ++ l2) = weight l1 + weight l2.
Proof. unfold weight. now rewrite map_app, list_sum_app. Qed.

Lemma weight_filter f l : weight (filter f l) <= weight l.
Proof.
  induction l as [|x l IH]; simpl; [lia|].
  destruct (f x); unfold weight in *; simpl; lia.
Qed.

Lemma weight_split_re sep b s : weight (split_re sep b s) <= S (length s).
Proof.
  revert b. induction s as [|c s IH]; intro b; simpl; [unfold weight; simpl; lia|].
  destruct (sep c).
  - destruct b.
    + specialize (IH true). lia.
    + specialize (IH true). unfold weight in *. simpl. lia.
  - specialize (IH false). destruct (split_re sep false s) as [|p r].
    + unfold weight; simpl; lia.
    + unfold weight in *. simpl in *. lia.
Qed.

Lemma length_join_sp l :
  length (join (str " ") l) = weight l - 1.
Proof.
  induction l as [|x l IH]; [reflexivity|].
  destruct l as [|y l].
  - unfold weight. simpl. lia.
  - change (join (str " ") (x :: y :: l))
      with (x ++ str " " ++ join (str " ") (y :: l)).
    rewrite !length_app, IH. unfold weight. simpl. lia.
Qed.

Lemma length_join_words text :
  length (join (str " ") (words_of text)) <= length text.
Proof.
  rewrite length_join_sp. unfold words_of, split.
  pose proof (weight_filter nonempty (split_re is_space false text)).
  pose proof (weight_split_re is_space false text). lia.
Qed.

Lemma words_of_are_words text : Forall is_word (words_of text).
Proof.
  unfold words_of, split. apply Forall_forall. intros w Hw.
  apply filter_In in Hw. destruct Hw as [Hin Hne]. split.
  - destruct w; [discriminate | discriminate].
  - pose proof (split_re_pieces is_space false text) as H.
    rewrite Forall_forall in H. now apply H.
Qed.

Lemma join_cons2 sep x y l :
  join sep (x :: y :: l) = x ++ sep ++ join sep (y :: l).
Proof. reflexivity. Qed.

(** Joining words with single spaces and splitting again is the identity. *)
Lemma words_of_join ws :
  Forall is_word ws -> words_of (join (str " ") ws) = ws.
Proof.
  induction 1 as [|w ws [Hne Hw] Hws IH]; [reflexivity|].
  destruct ws as [|w2 ws].
  - simpl. unfold words_of, split. rewrite split_re_none by exact Hw.
    simpl. destruct w; [congruence | reflexivity].
  - rewrite join_cons2. unfold words_of, split in *.
    rewrite split_re_app by exact Hw.
    change (str " " ++ join (str " ") (w2 :: ws))
      with (" "%char :: join (str " ") (w2 :: ws)).
    cbn [split_re]. change (is_space " "%char) with true. cbn iota.
    inversion Hws as [|? ? [Hne2 Hw2] _]; subst.
    destruct w2 as [|c w2]; [congruence|].
    inversion Hw2; subst.
    match goal with
    | |- context [split_re is_space true ?J] =>
        replace (split_re is_space true J) with (split_re is_space false J)
          by (destruct ws; cbn [join app]; symmetry; now apply split_re_flag)
    end.
    rewrite app_nil_r. cbn [filter].
    replace (nonempty w) with true by (destruct w; [congruence | reflexivity]).
    now rewrite IH.
Qed.

(** ** The similarity scorer *)

Lemma count_matches_filter k i a b m :
  count_matches k i a b m
  = m + length (filter (fun j => strict_eq (nth_error a j) (nth_error b j))
                  (seq i k)).
Proof.
  revert i m. induction k as [|k IH]; intros i m; simpl; [lia|].
  rewrite IH. destruct (strict_eq (nth_error a i) (nth_error b i)); simpl; lia.
Qed.

Lemma strict_eq_in_range (a b : list jsstring) j :
  j < length a -> j < length b ->
  strict_eq (nth_error a j) (nth_error b j)
  = jsstring_eqb (nth j a []) (nth j b []).
Proof.
  intros Ha Hb.
  rewrite (nth_error_nth' a [] Ha), (nth_error_nth' b [] Hb). reflexivity.
Qed.

Lemma count_matches_positional a b :
  count_matches (Nat.min (length a) (length b)) 0 a b 0
  = positional_matches a b.
Proof.
  rewrite count_matches_filter. unfold positional_matches. simpl.
  f_equal. apply filter_ext_in. intros j Hj. apply in_seq in Hj.
  apply strict_eq_in_range; lia.
Qed.

Lemma count_matches_le k i a b : count_matches k i a b 0 <= k.
Proof.
  rewrite count_matches_filter. simpl.
  etransitivity; [apply filter_length_le|]. now rewrite length_seq.
Qed.

(** C8.  On any two sequences of words the scorer returns the number of
    positions, below the length of the shorter one, at which they agree,
    divided by the length of the longer one, and 1 when both are empty;
    [calculateSimilarity] applies it to the white-space pieces of its two
    strings, and gives 1 on two empty strings. *)
Theorem C8_similarity_scorer :
  (forall a b : list jsstring, similarity_of_words a b = similarity_spec a b)
  /\ similarity_of_words [] [] = 1%Q
  /\ (forall str1 str2 : jsstring,
        calculateSimilarity str1 str2
        = ratio (positional_matches (split is_space str1) (split is_space str2))
            (Nat.max (length (split is_space str1))
                     (length (split is_space str2))))
  /\ calculateSimilarity [] [] = 1%Q.
Proof.
  assert (Hspec : forall a b, similarity_of_words a b = similarity_spec a b).
  { intros a b. unfold similarity_of_words, similarity_spec.
    rewrite count_matches_positional.
    destruct a, b; reflexivity. }
  repeat split; try reflexivity; [exact Hspec|].
  intros str1 str2. unfold calculateSimilarity. rewrite Hspec.
  unfold similarity_spec, split.
  destruct (split_re is_space false str1) eqn:E1; [|reflexivity].
  now apply split_re_not_nil in E1.
Qed.

(** ** The adjacent-duplicate collapser *)

Lemma ci_equal_eq a b : ci_equal a b = true <-> toLowerCase a = toLowerCase b.
Proof. apply jsstring_eqb_eq. Qed.

Lemma ci_equal_congr a b w :
  toLowerCase a = toLowerCase b -> ci_equal w a = ci_equal w b.
Proof. unfold ci_equal. now intros ->. Qed.

Lemma collapse_prev_after prev retained ws :
  toLowerCase prev = toLowerCase retained ->
  collapse_prev prev ws = collapse_after retained ws.
Proof.
  revert prev retained. induction ws as [|w ws IH]; intros prev retained E;
    simpl; [reflexivity|].
  rewrite (ci_equal_congr _ _ w E).
  destruct (ci_equal w retained) eqn:Ew.
  - apply IH. apply ci_equal_eq in Ew. congruence.
  - f_equal. now apply IH.
Qed.

Lemma adjacent_for_middle pre p rest result :
  adjacent_for (length rest) (S (length pre)) (pre ++ p :: rest) result
  = result ++ collapse_prev p rest.
Proof.
  revert pre p result. induction rest as [|w rest IH]; intros pre p result.
  - simpl. now rewrite app_nil_r.
  - cbn [length adjacent_for Nat.eqb orb].
    replace (nth (S (length pre)) (pre ++ p :: w :: rest) []) with w.
    2:{ change (pre ++ p :: w :: rest) with (pre ++ [p] ++ w :: rest).
        rewrite app_assoc.
        replace (S (length pre)) with (length (pre ++ [p]))
          by (rewrite length_app; simpl; lia).
        now rewrite nth_middle. }
    replace (nth (S (length pre) - 1) (pre ++ p :: w :: rest) []) with p.
    2:{ replace (S (length pre) - 1) with (length pre) by lia.
        now rewrite nth_middle. }
    specialize (IH (pre ++ [p]) w).
    rewrite <- app_assoc in IH. cbn [app] in IH.
    replace (length (pre ++ [p])) with (S (length pre)) in IH
      by (rewrite length_app; simpl; lia).
    rewrite IH. cbn [collapse_prev]. fold (ci_equal w p).
    destruct (ci_equal w p); cbn [negb]; [reflexivity|].
    now rewrite <- app_assoc.
Qed.

Lemma adjacent_words_spec ws : adjacent_words ws = collapse_spec ws.
Proof.
  destruct ws as [|w ws]; [reflexivity|].
  unfold adjacent_words. cbn [length adjacent_for Nat.eqb orb nth app].
  pose proof (adjacent_for_middle [] w ws [w]) as H.
  cbn [app] in H. change (length (@nil jsstring)) with 0 in H. rewrite H.
  cbn [app collapse_spec].
  f_equal. now apply collapse_prev_after.
Qed.

(** C7.  On every word stream the collapser keeps the first token and drops
    a later token exactly when it is case-insensitively equal to the last
    retained token; the tokens the, The, cat, sat give the, cat, sat. *)
Theorem C7_adjacent_collapse :
  (forall words : list jsstring,
      adjacent_words words = collapse_spec words
      /\ hd_error (adjacent_words words) = hd_error words)
  /\ (forall text : jsstring,
        removeAdjacentDuplicates text
        = join (str " ") (collapse_spec (words_of text)))
  /\ adjacent_words [str "the"; str "The"; str "cat"; str "sat"]
     = [str "the"; str "cat"; str "sat"]
  /\ removeAdjacentDuplicates (str "the The cat sat") = str "the cat sat".
Proof.
  repeat split; try reflexivity.
  - apply adjacent_words_spec.
  - rewrite adjacent_words_spec. now destruct words.
  - intros text. unfold removeAdjacentDuplicates.
    now rewrite adjacent_words_spec.
Qed.

(** C5.  The pipeline maps the sentence repeated three times and followed
    by another one to the two sentences. *)
Theorem C5_triple_repeat_collapse :
  removeDuplicateText
    [str "the market is up today. the market is up today. the market is up today. volatility remains high."]
  = str "the market is up today. volatility remains high.".
Proof. vm_compute. reflexivity. Qed.

(** ** White space and trimming *)

Lemma trimStart_split s :
  exists ws, s = ws ++ trimStart s /\ blank ws.
Proof.
  induction s as [|c s [ws [E B]]]; simpl.
  - exists []. split; [reflexivity | constructor].
  - destruct (is_space c) eqn:Ec.
    + exists (c :: ws). split; [simpl; congruence | now constructor].
    + exists []. split; [reflexivity | constructor].
Qed.

Lemma trimStart_starts_ok s : starts_ok (trimStart s).
Proof.
  induction s as [|c s IH]; simpl; [exact I|].
  destruct (is_space c) eqn:Ec; [exact IH | exact Ec].
Qed.

Lemma trimStart_fix s : starts_ok s -> trimStart s = s.
Proof. destruct s as [|c s]; simpl; [reflexivity | now intros ->]. Qed.

Lemma trimStart_blank s : blank s -> trimStart s = [].
Proof. induction 1 as [|c s Hc _ IH]; simpl; [reflexivity | now rewrite Hc]. Qed.

Lemma trim_fix s : starts_ok s -> starts_ok (rev s) -> trim s = s.
Proof.
  intros H1 H2. unfold trim.
  rewrite (trimStart_fix s H1), (trimStart_fix _ H2). apply rev_involutive.
Qed.

Lemma trim_blank s : blank s -> trim s = [].
Proof. intros H. unfold trim. now rewrite (trimStart_blank s H). Qed.

Lemma trim_ends_ok s : starts_ok (trim s) /\ starts_ok (rev (trim s)).
Proof.
  unfold trim. rewrite rev_involutive. split; [|apply trimStart_starts_ok].
  pose proof (trimStart_starts_ok s) as Hu.
  destruct (trimStart_split (rev (trimStart s))) as [ws [E _]].
  apply (f_equal (@rev ascii)) in E. rewrite rev_involutive, rev_app_distr in E.
  destruct (rev (trimStart (rev (trimStart s)))) as [|c r]; [exact I|].
  rewrite E in Hu. exact Hu.
Qed.

Lemma trim_idempotent s : trim (trim s) = trim s.
Proof. apply trim_fix; apply trim_ends_ok. Qed.

Lemma trimStart_Forall (P : ascii -> Prop) s :
  Forall P s -> Forall P (trimStart s).
Proof.
  induction 1 as [|c s Hc Hs IH]; simpl; [constructor|].
  destruct (is_space c); [exact IH | now constructor].
Qed.

Lemma trim_Forall (P : ascii -> Prop) s : Forall P s -> Forall P (trim s).
Proof.
  intros H. unfold trim.
  apply Forall_rev, trimStart_Forall, Forall_rev, trimStart_Forall, H.
Qed.

Lemma collapse_ws_blank b s : blank s -> blank (collapse_ws b s).
Proof.
  intros H. revert b. induction H as [|c s Hc _ IH]; intro b; simpl;
    [constructor|].
  rewrite Hc. destruct b; [apply IH|]. constructor; [reflexivity | apply IH].
Qed.

Lemma join_Forall (P : ascii -> Prop) sep l :
  Forall P sep -> Forall (Forall P) l -> Forall P (join sep l).
Proof.
  intros Hsep. induction 1 as [|x l Hx Hl IH]; [constructor|].
  destruct l as [|y l]; [exact Hx|].
  rewrite join_cons2. apply Forall_app. split; [exact Hx|].
  apply Forall_app. split; [exact Hsep | exact IH].
Qed.

Lemma split_re_blank b s :
  blank s -> Forall (fun p => p = []) (split_re is_space b s).
Proof.
  intros H. revert b. induction H as [|c s Hc _ IH]; intro b; simpl.
  - repeat constructor.
  - rewrite Hc. destruct b; [apply IH|]. constructor; [reflexivity | apply IH].
Qed.

Lemma words_of_blank s : blank s -> words_of s = [].
Proof.
  intros H. unfold words_of, split.
  pose proof (split_re_blank false s H) as Hp.
  induction Hp as [|p l -> _ IH]; simpl; [reflexivity | exact IH].
Qed.

Lemma space_not_sentence_end c : is_space c = true -> is_sentence_end c = false.
Proof.
  destruct c as [[] [] [] [] [] [] [] []]; vm_compute; congruence.
Qed.

Lemma sentences_of_blank s : blank s -> sentences_of s = [].
Proof.
  intros H. unfold sentences_of, split.
  rewrite split_re_none.
  - simpl. now rewrite (trim_blank s H).
  - eapply Forall_impl; [|exact H]. apply space_not_sentence_end.
Qed.

(** ** Empty and blank input *)

(** C9, as the code has it.  Every stage and the pipeline are total
    functions.  On an empty string every stage returns the empty string.
    On a string of white space only, the adjacent-duplicate collapser
    returns the empty string, while pattern-repeat and sentence-repeat
    elimination return the string as it is (their short-circuits for fewer
    than 4 words and fewer than 2 sentences); the pipeline returns the
    empty string when all of its lines are blank. *)
Theorem C9_blank_input (text : jsstring) (textLines : list jsstring) :
  blank text -> Forall blank textLines ->
  removePatternRepeats text = text
  /\ removeSentenceRepeats text = text
  /\ removeAdjacentDuplicates text = []
  /\ removePatternRepeats [] = []
  /\ removeSentenceRepeats [] = []
  /\ removeDuplicateText textLines = [].
Proof.
  intros Ht Hl. repeat split; try reflexivity.
  - unfold removePatternRepeats. now rewrite (words_of_blank text Ht).
  - unfold removeSentenceRepeats. now rewrite (sentences_of_blank text Ht).
  - unfold removeAdjacentDuplicates. now rewrite (words_of_blank text Ht).
  - unfold removeDuplicateText.
    destruct (length textLines =? 0); [reflexivity|].
    rewrite trim_blank; [reflexivity|].
    apply collapse_ws_blank, join_Forall; [repeat constructor | exact Hl].
Qed.

Lemma C9_blank_input_witness :
  removePatternRepeats (str "  ") = str "  "
  /\ removeSentenceRepeats (str "  ") = str "  "
  /\ removeAdjacentDuplicates (str "  ") = []
  /\ removePatternRepeats [] = []
  /\ removeSentenceRepeats [] = []
  /\ removeDuplicateText [str " "; []; str "   "] = [].
Proof.
  apply (C9_blank_input (str "  ") [str " "; []; str "   "]);
    repeat constructor.
Defined.

(** The stages that short-circuit hand a blank string back unchanged: the
    result is not the empty string. *)
Lemma C9_blank_not_emptied :
  removePatternRepeats (str " ") <> []
  /\ removeSentenceRepeats (str " ") <> [].
Proof. split; vm_compute; discriminate. Qed.

(** ** The sentence-repeat eliminator *)

Lemma sentence_loop_app pre post st :
  sentence_loop (pre ++ post) st = sentence_loop post (sentence_loop pre st).
Proof. apply fold_left_app. Qed.

Lemma sentence_loop_cons s post st :
  sentence_loop (s :: post) st = sentence_loop post (sentence_step st s).
Proof. reflexivity. Qed.

Lemma exceeds_threshold_iff q : exceeds_threshold q = true <-> (8 # 10 < q)%Q.
Proof.
  unfold exceeds_threshold. rewrite negb_true_iff.
  split; intro H.
  - apply Qnot_le_lt. intro Hle. apply Qle_bool_iff in Hle. congruence.
  - destruct (Qle_bool q (8 # 10)) eqn:E; [|reflexivity].
    apply Qle_bool_iff in E. now apply Qlt_not_le in H.
Qed.

Lemma isDuplicate_iff fingerprint seen :
  isDuplicate fingerprint seen = true
  <-> exists seenFingerprint,
        In seenFingerprint seen
        /\ (8 # 10 < calculateSimilarity fingerprint seenFingerprint)%Q.
Proof.
  unfold isDuplicate. rewrite existsb_exists.
  split; intros [fp [Hin H]]; exists fp; (split; [exact Hin|]);
    now apply exceeds_threshold_iff.
Qed.

Lemma uniq_grows (l : list jsstring) x : l ++ [x] <> l.
Proof.
  intro E. apply (f_equal (fun l => length l)) in E.
  rewrite length_app in E. simpl in E. lia.
Qed.

(** A sentence is dropped when the step leaves the state as it was. *)
Lemma sentence_step_dropped_iff st s :
  sentence_step st s = st
  <-> isDuplicate (fingerprint_of s) (snd st) = true
      \/ length (content_words s) < 3.
Proof.
  destruct st as [uniq seen]. unfold sentence_step. cbn [snd].
  destruct (isDuplicate (fingerprint_of s) seen); cbn [negb andb].
  - split; auto.
  - destruct (3 <=? length (content_words s)) eqn:E.
    + apply Nat.leb_le in E. split.
      * intro H. injection H as H _. now apply uniq_grows in H.
      * intros [H|H]; [discriminate | lia].
    + apply Nat.leb_gt in E. split; auto.
Qed.

(** Case analysis on the test of [sentence_step]. *)
Ltac step_cases s seen :=
  destruct (negb (isDuplicate (fingerprint_of s) seen)
            && (3 <=? length (content_words s))).

Lemma fingerprint_of_trim s : fingerprint_of (trim s) = fingerprint_of s.
Proof. unfold fingerprint_of, content_words. now rewrite trim_idempotent. Qed.

Lemma set_add_In x y s : In y (set_add x s) <-> y = x \/ In y s.
Proof.
  unfold set_add. destruct (existsb (jsstring_eqb x) s) eqn:E.
  - split; [auto|]. intros [->|H]; [|exact H].
    apply existsb_exists in E. destruct E as [z [Hz Ez]].
    apply jsstring_eqb_eq in Ez. now subst.
  - rewrite in_app_iff. simpl. intuition congruence.
Qed.

Lemma sentence_step_registered st s :
  registered st -> registered (sentence_step st s).
Proof.
  destruct st as [uniq seen]. unfold registered, sentence_step. cbn [fst snd].
  intros H k.
  step_cases s seen; cbn [fst snd]; [|apply H].
  rewrite in_app_iff, set_add_In. simpl.
  intros [Hk|[<-|[]]]; [right; now apply H | left; apply fingerprint_of_trim].
Qed.

Lemma sentence_loop_registered l st :
  registered st -> registered (sentence_loop l st).
Proof.
  revert st. induction l as [|s l IH]; intros st H; [exact H|].
  rewrite sentence_loop_cons. now apply IH, sentence_step_registered.
Qed.

(** Every kept sentence is a trimmed input sentence. *)
Lemma sentence_loop_kept (P : jsstring -> Prop) l st :
  Forall P (fst st) -> Forall (fun s => P (trim s)) l ->
  Forall P (fst (sentence_loop l st)).
Proof.
  intros Hst Hl. revert st Hst.
  induction Hl as [|s l Hs _ IH]; intros st Hst; [exact Hst|].
  rewrite sentence_loop_cons. apply IH.
  destruct st as [uniq seen]. unfold sentence_step.
  step_cases s seen; cbn [fst] in *; [|exact Hst].
  apply Forall_app. split; [exact Hst | now constructor].
Qed.

Lemma sentence_loop_count l st :
  length (fst (sentence_loop l st)) <= length (fst st) + length l.
Proof.
  revert st. induction l as [|s l IH]; intros st; [simpl; lia|].
  rewrite sentence_loop_cons. specialize (IH (sentence_step st s)).
  destruct st as [uniq seen]. unfold sentence_step in *.
  step_cases s seen; cbn [fst length] in *;
    [rewrite length_app in IH; simpl in IH|]; lia.
Qed.

(** C3, as the code has it.  Starting from the empty state, a sentence whose
    fingerprint overlaps the fingerprint of a sentence kept before it by
    strictly more than 0.8 is dropped: the loop ends in the state it reaches
    without that sentence.  On the pair of the specification the overlap is
    exactly 4/5, which does not exceed 0.8, and both sentences are kept. *)
Theorem C3_near_duplicate_dropped (pre post : list jsstring) (s k : jsstring) :
  In k (fst (sentence_loop pre ([], []))) ->
  (8 # 10 < calculateSimilarity (fingerprint_of s) (fingerprint_of k))%Q ->
  sentence_loop (pre ++ s :: post) ([], []) = sentence_loop (pre ++ post) ([], [])
  /\ calculateSimilarity
       (fingerprint_of (str " revenue grew sharply last quarter"))
       (fingerprint_of (str "revenue grew sharply this quarter")) = (4 # 5)%Q
  /\ removeSentenceRepeats
       (str "revenue grew sharply this quarter. revenue grew sharply last quarter.")
     = str "revenue grew sharply this quarter. revenue grew sharply last quarter.".
Proof.
  intros Hk Hsim. split; [|split; vm_compute; reflexivity].
  rewrite !sentence_loop_app, sentence_loop_cons. f_equal.
  apply sentence_step_dropped_iff. left. apply isDuplicate_iff.
  exists (fingerprint_of k). split; [|exact Hsim].
  apply (sentence_loop_registered pre ([], [])); [|exact Hk].
  intros ? [].
Qed.

Lemma C3_near_duplicate_dropped_witness :
  sentence_loop
    ([str "revenue grew sharply this quarter"]
     ++ str " Revenue grew sharply this quarter and beyond"
     :: [str " margins held steady"]) ([], [])
  = sentence_loop
      ([str "revenue grew sharply this quarter"]
       ++ [str " margins held steady"]) ([], [])
  /\ calculateSimilarity
       (fingerprint_of (str " revenue grew sharply last quarter"))
       (fingerprint_of (str "revenue grew sharply this quarter")) = (4 # 5)%Q
  /\ removeSentenceRepeats
       (str "revenue grew sharply this quarter. revenue grew sharply last quarter.")
     = str "revenue grew sharply this quarter. revenue grew sharply last quarter.".
Proof.
  apply (C3_near_duplicate_dropped
           [str "revenue grew sharply this quarter"]
           [str " margins held steady"]
           (str " Revenue grew sharply this quarter and beyond")
           (str "revenue grew sharply this quarter")).
  - vm_compute. left. reflexivity.
  - vm_compute. reflexivity.
Defined.

(** The second sentence of the specification's pair overlaps the first by
    4/5, which is at least 0.8, and it is kept. *)
Lemma C3_pair_kept :
  Qle_bool (8 # 10)
    (calculateSimilarity (str "revenue grew sharply last quarter")
       (str "revenue grew sharply this quarter")) = true
  /\ fst (sentence_loop
            (sentences_of
               (str "revenue grew sharply this quarter. revenue grew sharply last quarter."))
            ([], []))
     = [str "revenue grew sharply this quarter";
        str "revenue grew sharply last quarter"].
Proof. split; vm_compute; reflexivity. Qed.

(** C2, as the code has it.  The comparison of fingerprints is the whole
    decision: a sentence is dropped exactly when its fingerprint overlaps
    some seen fingerprint by more than 0.8, or it has fewer than three
    content words.  Two sentences with the same fingerprint that both have,
    or both lack, three content words are therefore treated alike, whatever
    the rest of their words. *)
Theorem C2_fingerprint_decides (st : sentence_state) (s s' : jsstring) :
  fingerprint_of s' = fingerprint_of s ->
  (3 <=? length (content_words s')) = (3 <=? length (content_words s)) ->
  (sentence_step st s = st
   <-> (exists seenFingerprint,
           In seenFingerprint (snd st)
           /\ (8 # 10 < calculateSimilarity (fingerprint_of s) seenFingerprint)%Q)
       \/ length (content_words s) < 3)
  /\ (sentence_step st s' = st <-> sentence_step st s = st)
  /\ snd (sentence_step st s') = snd (sentence_step st s).
Proof.
  intros Hfp Hcw. split; [|split].
  - rewrite sentence_step_dropped_iff, isDuplicate_iff. reflexivity.
  - rewrite !sentence_step_dropped_iff, Hfp.
    rewrite <- !Nat.leb_gt, Hcw. reflexivity.
  - destruct st as [uniq seen]. unfold sentence_step. rewrite Hfp, Hcw.
    step_cases s seen; reflexivity.
Qed.

Lemma C2_fingerprint_decides_witness :
  let st := sentence_loop [str "alpha beta gamma delta epsilon one"] ([], []) in
  let s := str " alpha beta gamma delta epsilon totally different ending" in
  let s' := str " Alpha beta gamma delta epsilon" in
  (sentence_step st s = st
   <-> (exists seenFingerprint,
           In seenFingerprint (snd st)
           /\ (8 # 10 < calculateSimilarity (fingerprint_of s) seenFingerprint)%Q)
       \/ length (content_words s) < 3)
  /\ (sentence_step st s' = st <-> sentence_step st s = st)
  /\ snd (sentence_step st s') = snd (sentence_step st s).
Proof.
  intros st s s'. apply (C2_fingerprint_decides st s s'); reflexivity.
Defined.

(** The complete sentences are not compared.  A sentence that agrees with a
    kept one in half of its positions is dropped because the first five
    content words agree; a sentence that agrees with a kept one in seven
    positions of eight is kept because the first of its five fingerprint
    words differs. *)
Lemma C2_full_overlap_not_used :
  (full_overlap (str " alpha beta gamma delta epsilon totally different ending here now")
     (str "alpha beta gamma delta epsilon one") == 5 # 10)%Q
  /\ removeSentenceRepeats
       (str "alpha beta gamma delta epsilon one. alpha beta gamma delta epsilon totally different ending here now.")
     = str "alpha beta gamma delta epsilon one."
  /\ (full_overlap (str " shares rose today while bonds fell sharply again")
        (str "stocks rose today while bonds fell sharply again") == 7 # 8)%Q
  /\ removeSentenceRepeats
       (str "stocks rose today while bonds fell sharply again. shares rose today while bonds fell sharply again.")
     = str "stocks rose today while bonds fell sharply again. shares rose today while bonds fell sharply again.".
Proof. repeat split; vm_compute; reflexivity. Qed.

(** ** Re-punctuation by the sentence stage *)

Lemma sentences_of_pieces text :
  Forall (fun s => Forall (fun c => is_sentence_end c = false) (trim s))
    (sentences_of text).
Proof.
  unfold sentences_of, split. apply Forall_forall. intros s Hs.
  apply filter_In in Hs. destruct Hs as [Hs _].
  pose proof (split_re_pieces is_sentence_end false text) as H.
  rewrite Forall_forall in H. apply trim_Forall, H, Hs.
Qed.

Lemma existsb_same_members {A} (g : A -> bool) l l' :
  (forall x, In x l <-> In x l') -> existsb g l = existsb g l'.
Proof.
  intro H. destruct (existsb g l) eqn:E, (existsb g l') eqn:E';
    try reflexivity.
  - apply existsb_exists in E. destruct E as [x [Hx Hg]].
    assert (existsb g l' = true)
      by (apply existsb_exists; exists x; split; [now apply H | exact Hg]).
    congruence.
  - apply existsb_exists in E'. destruct E' as [x [Hx Hg]].
    assert (existsb g l = true)
      by (apply existsb_exists; exists x; split; [now apply H | exact Hg]).
    congruence.
Qed.

(** The test against the seen fingerprints is a test against the kept
    sentences. *)
Lemma isDuplicate_by_kept uniq seen fp :
  seen_agrees (uniq, seen) ->
  negb (isDuplicate fp seen)
  = forallb (fun k =>
               negb (exceeds_threshold
                       (calculateSimilarity fp (fingerprint_of k)))) uniq.
Proof.
  intro H. unfold isDuplicate.
  rewrite (existsb_same_members _ seen (map fingerprint_of uniq)) by exact H.
  clear H. induction uniq as [|k uniq IH]; [reflexivity|].
  cbn [map existsb forallb]. now rewrite negb_orb, IH.
Qed.

Lemma sentence_step_seen_agrees st s :
  seen_agrees st -> seen_agrees (sentence_step st s).
Proof.
  destruct st as [uniq seen]. unfold seen_agrees, sentence_step.
  cbn [fst snd]. intros H fp.
  step_cases s seen; cbn [fst snd]; [|apply H].
  rewrite set_add_In, map_app, in_app_iff, H. cbn [map In].
  rewrite fingerprint_of_trim. intuition congruence.
Qed.

(** The loop keeps what the rule keeps. *)
Lemma sentence_loop_keep_from l st :
  seen_agrees st ->
  fst (sentence_loop l st) = fst st ++ keep_from (fst st) l.
Proof.
  revert st. induction l as [|s l IH]; intros st H.
  - simpl. now rewrite app_nil_r.
  - rewrite sentence_loop_cons, (IH _ (sentence_step_seen_agrees st s H)).
    destruct st as [uniq seen]. unfold sentence_step. cbn [fst keep_from].
    rewrite (isDuplicate_by_kept uniq seen (fingerprint_of s) H).
    rewrite (andb_comm (3 <=? length (content_words s))).
    destruct (forallb _ uniq && (3 <=? length (content_words s)));
      cbn [fst]; [|reflexivity].
    now rewrite <- app_assoc.
Qed.

(** Joining with a period and a space and closing with a period is ending
    every sentence with a period and joining with a space. *)
Lemma join_periods kept :
  join (str ". ") kept ++ (if 0 <? length kept then str "." else [])
  = join (str " ") (map (fun k => k ++ str ".") kept).
Proof.
  induction kept as [|k kept IH]; [reflexivity|].
  destruct kept as [|k2 kept]; [reflexivity|].
  cbn [map] in *.
  rewrite (join_cons2 (str ". ") k k2 kept).
  rewrite (join_cons2 (str " ") (k ++ str ".") (k2 ++ str ".")).
  cbn [length Nat.ltb Nat.leb] in *.
  rewrite <- !app_assoc. f_equal.
  change (str ". ") with ("."%char :: str " ").
  change (str "." ++ str " " ++ ?x) with ("."%char :: str " " ++ x).
  cbn [app]. do 2 f_equal. exact IH.
Qed.

Lemma count_char_app c a b :
  count_char c (a ++ b) = count_char c a + count_char c b.
Proof. apply count_occ_app. Qed.

Lemma count_period_none k :
  Forall (fun c => is_sentence_end c = false) k -> count_char "."%char k = 0.
Proof.
  intro H. apply count_occ_not_In. intro Hin.
  rewrite Forall_forall in H. now apply H in Hin.
Qed.

Lemma count_periods kept :
  Forall (Forall (fun c => is_sentence_end c = false)) kept ->
  count_char "."%char (join (str " ") (map (fun k => k ++ str ".") kept))
  = length kept.
Proof.
  induction 1 as [|k kept Hk _ IH]; [reflexivity|].
  destruct kept as [|k2 kept].
  - cbn [map join length]. rewrite count_char_app, (count_period_none k Hk).
    reflexivity.
  - cbn [map] in *. rewrite join_cons2, !count_char_app.
    rewrite (count_period_none k Hk).
    change (count_char "."%char (str ".")) with 1.
    change (count_char "."%char (str " ")) with 0.
    cbn [Nat.add length]. f_equal. exact IH.
Qed.

(** C10, as the code has it.  When the input splits into at least two
    non-empty sentence fragments, the output is the kept sentences, each
    followed by one period, joined by single spaces, where a fragment is
    kept exactly when it has at least three content words and its
    fingerprint overlaps the fingerprint of no fragment kept before it by
    more than 0.8.  So the output has as many periods as kept sentences and
    neither an exclamation mark nor a question mark: the terminator of a
    kept sentence, whatever it was, has become one period, and the
    terminator of a dropped sentence has gone with it. *)
Theorem C10_kept_sentences_end_in_periods (text : jsstring) :
  2 <= length (sentences_of text) ->
  let kept := keep_from [] (sentences_of text) in
  removeSentenceRepeats text
  = join (str " ") (map (fun k => k ++ str ".") kept)
  /\ count_char "."%char (removeSentenceRepeats text) = length kept
  /\ count_char "!"%char (removeSentenceRepeats text) = 0
  /\ count_char "?"%char (removeSentenceRepeats text) = 0.
Proof.
  intros Hlen kept.
  assert (Hk : fst (sentence_loop (sentences_of text) ([], [])) = kept).
  { rewrite sentence_loop_keep_from; [reflexivity|]. intro fp. reflexivity. }
  assert (E : removeSentenceRepeats text
              = join (str " ") (map (fun k => k ++ str ".") kept)).
  { unfold removeSentenceRepeats.
    destruct (length (sentences_of text) <=? 1) eqn:El;
      [apply Nat.leb_le in El; lia|].
    cbn zeta. rewrite Hk. apply join_periods. }
  assert (Hno : Forall (Forall (fun c => is_sentence_end c = false)) kept).
  { rewrite <- Hk.
    apply sentence_loop_kept; [constructor | apply sentences_of_pieces]. }
  split; [exact E|]. split; [rewrite E; now apply count_periods|].
  assert (Hc : forall c, c <> "."%char -> c <> " "%char ->
                 is_sentence_end c = true ->
                 count_char c (removeSentenceRepeats text) = 0).
  { intros c Hp Hs Hend. apply count_occ_not_In. rewrite E. intro Hin.
    assert (HF : Forall (fun d => d <> c)
                   (join (str " ") (map (fun k => k ++ str ".") kept))).
    { apply join_Forall; [repeat constructor; congruence|].
      apply Forall_map. eapply Forall_impl; [|exact Hno].
      intros k Hkc. apply Forall_app. split.
      - eapply Forall_impl; [|exact Hkc]. intros d Hd ->. congruence.
      - repeat constructor. congruence. }
    rewrite Forall_forall in HF. now apply (HF c Hin). }
  split; apply Hc; (discriminate || reflexivity).
Qed.

Lemma C10_kept_sentences_end_in_periods_witness :
  let text := str "Is the market up today? ok! Volatility remains high!! Is the market up today?" in
  let kept := keep_from [] (sentences_of text) in
  removeSentenceRepeats text
  = join (str " ") (map (fun k => k ++ str ".") kept)
  /\ count_char "."%char (removeSentenceRepeats text) = length kept
  /\ count_char "!"%char (removeSentenceRepeats text) = 0
  /\ count_char "?"%char (removeSentenceRepeats text) = 0.
Proof.
  intros text. apply (C10_kept_sentences_end_in_periods text).
  vm_compute. lia.
Defined.

(** The terminators of dropped sentences are not replaced by periods: they
    disappear with their sentences.  Two short sentences leave nothing at
    all; of three terminators only the two of the kept sentences are
    periods in the output. *)
Lemma C10_terminators_of_dropped_sentences_vanish :
  length (sentences_of (str "Hi! Ok?")) = 2
  /\ removeSentenceRepeats (str "Hi! Ok?") = []
  /\ length (sentences_of (str "Is the market up today? ok! Volatility remains high!")) = 3
  /\ removeSentenceRepeats (str "Is the market up today? ok! Volatility remains high!")
     = str "Is the market up today. Volatility remains high."
  /\ count_char "."%char
       (removeSentenceRepeats (str "Is the market up today? ok! Volatility remains high!"))
     = 2.
Proof. repeat split; vm_compute; reflexivity. Qed.

(** ** Subsequences: removal without reordering or insertion *)

Lemma subseq_refl {A} (l : list A) : subseq l l.
Proof. induction l; auto. Qed.

Lemma subseq_nil_l {A} (l : list A) : subseq [] l.
Proof. induction l; auto. Qed.

Lemma subseq_app {A} (l1 l1' l2 l2' : list A) :
  subseq l1 l1' -> subseq l2 l2' -> subseq (l1 ++ l2) (l1' ++ l2').
Proof. induction 1; intros H2; simpl; auto. Qed.

Lemma subseq_trans {A} (l1 l2 l3 : list A) :
  subseq l1 l2 -> subseq l2 l3 -> subseq l1 l3.
Proof.
  intros H12 H23. revert l1 H12.
  induction H23 as [|x l2 l3 _ IH|x l2 l3 _ IH]; intros l1 H12; auto.
  inversion H12; subst; auto.
Qed.

Lemma subseq_skipn {A} k (l : list A) : subseq (skipn k l) l.
Proof.
  revert l. induction k as [|k IH]; intro l; [apply subseq_refl|].
  destruct l; simpl; auto.
Qed.

Lemma subseq_skipn_le {A} a b (l : list A) :
  a <= b -> subseq (skipn b l) (skipn a l).
Proof.
  intro H. replace b with ((b - a) + a) by lia.
  rewrite <- skipn_skipn. apply subseq_skipn.
Qed.

Lemma subseq_filter {A} (f : A -> bool) (l : list A) : subseq (filter f l) l.
Proof. induction l as [|x l IH]; simpl; [auto|]. destruct (f x); auto. Qed.

Lemma subseq_length {A} (l1 l2 : list A) :
  subseq l1 l2 -> length l1 <= length l2.
Proof. induction 1; simpl; lia. Qed.

Lemma subseq_weight l1 l2 : subseq l1 l2 -> weight l1 <= weight l2.
Proof. induction 1; unfold weight in *; simpl; lia. Qed.

Lemma subseq_Forall {A} (P : A -> Prop) (l1 l2 : list A) :
  subseq l1 l2 -> Forall P l2 -> Forall P l1.
Proof.
  induction 1; intros H2; auto; inversion H2; subst; auto.
Qed.

Lemma skipn_nth_cons {A} (l : list A) i d :
  i < length l -> skipn i l = nth i l d :: skipn (S i) l.
Proof.
  revert l. induction i as [|i IH]; intros [|x l] H; simpl in *;
    try lia; [reflexivity|].
  apply IH. lia.
Qed.

Lemma collapse_after_subseq r ws : subseq (collapse_after r ws) ws.
Proof.
  revert r. induction ws as [|w ws IH]; intro r; simpl; [auto|].
  destruct (ci_equal w r); auto.
Qed.

Lemma collapse_spec_subseq ws : subseq (collapse_spec ws) ws.
Proof. destruct ws; simpl; auto using collapse_after_subseq. Qed.

Lemma collapse_after_idempotent r ws :
  collapse_after r (collapse_after r ws) = collapse_after r ws.
Proof.
  revert r. induction ws as [|w ws IH]; intro r; simpl; [reflexivity|].
  destruct (ci_equal w r) eqn:E; [apply IH|].
  simpl. rewrite E. f_equal. apply IH.
Qed.

Lemma collapse_spec_idempotent ws :
  collapse_spec (collapse_spec ws) = collapse_spec ws.
Proof.
  destruct ws as [|w ws]; simpl; [reflexivity|].
  f_equal. apply collapse_after_idempotent.
Qed.

(** ** The pattern-repeat eliminator *)

Lemma similar_enough_iff matches L :
  1 <= L -> similar_enough matches L = true <-> 85 * L <= 100 * matches.
Proof.
  intro HL. unfold similar_enough, ratio. rewrite Qle_bool_iff.
  unfold Qle. cbn [Qnum Qden].
  rewrite <- (Znat.positive_nat_Z (Pos.of_nat L)), Nat2Pos.id by lia. lia.
Qed.

Lemma length_slice {A} (l : list A) a L :
  a + L <= length l -> length (slice l a (a + L)) = L.
Proof.
  intro H. unfold slice. rewrite length_firstn, length_skipn. lia.
Qed.

Lemma block_0 words i L : block words i L 0 = slice words i (i + L).
Proof. unfold block. simpl. now rewrite Nat.add_0_r. Qed.

Lemma slice_firstn {A} (l : list A) a L :
  slice l a (a + L) = firstn L (skipn a l).
Proof. unfold slice. f_equal. lia. Qed.

Lemma block_matches_test words i L j :
  1 <= L -> i + j * L + L <= length words ->
  similar_enough
    (count_matches L 0 (block words i L 0)
       (slice words (i + j * L) (i + j * L + L)) 0) L = true
  <-> block_matches words i L j.
Proof.
  intros HL Hfit. rewrite similar_enough_iff by exact HL.
  assert (H0 : length (block words i L 0) = L).
  { rewrite block_0. apply length_slice. lia. }
  assert (Hj : length (slice words (i + j * L) (i + j * L + L)) = L)
    by now apply length_slice.
  pose proof (count_matches_positional (block words i L 0)
                (slice words (i + j * L) (i + j * L + L))) as E.
  rewrite H0, Hj, Nat.min_id in E. rewrite E.
  unfold block_matches. fold (block words i L j). tauto.
Qed.

(** The inner [while] ends within its fuel, with the number of consecutive
    matching blocks and the index just after them. *)
Lemma scan_repeats_total fuel words i L rc checkIndex :
  1 <= L -> checkIndex = i + rc * L -> checkIndex <= length words ->
  length words < fuel + checkIndex ->
  exists r,
    scan_repeats fuel words (block words i L 0) L rc checkIndex
    = Done (r, i + r * L)
    /\ rc <= r
    /\ (forall j, rc <= j < r -> block_matches words i L j)
    /\ ~ block_matches words i L r.
Proof.
  intros HL. revert rc checkIndex.
  induction fuel as [|fuel IH]; intros rc checkIndex Hci Hin Hfuel; [lia|].
  cbn [scan_repeats]. subst checkIndex.
  destruct (i + rc * L + L <=? length words) eqn:Hfit.
  - apply Nat.leb_le in Hfit.
    destruct (similar_enough _ L) eqn:Hsim.
    + apply block_matches_test in Hsim; [|exact HL|exact Hfit].
      destruct (IH (S rc) (i + rc * L + L)) as [r [E [Hle [Hall Hnot]]]];
        [lia | lia | lia |].
      exists r. split; [exact E|]. split; [lia|]. split; [|exact Hnot].
      intros j Hj. destruct (Nat.eq_dec j rc) as [->|Hne]; [exact Hsim|].
      apply Hall. lia.
    + exists rc. split; [reflexivity|]. split; [lia|]. split; [intros; lia|].
      intro Hm. apply block_matches_test in Hm; [congruence|exact HL|exact Hfit].
  - apply Nat.leb_gt in Hfit. exists rc.
    split; [reflexivity|]. split; [lia|]. split; [intros; lia|].
    intros [Hm _]. lia.
Qed.

(** The [for] over the pattern lengths finds the longest length, at most the
    one it starts from, whose pattern is followed by a matching block. *)
Lemma try_lengths_spec words i Lmax :
  (exists L r,
      try_lengths words i Lmax = Done (Some (block words i L 0, i + r * L))
      /\ 2 <= L <= Lmax /\ 2 <= r /\ occurs words i L r
      /\ forall L', L < L' <= Lmax -> ~ block_matches words i L' 1)
  \/ (try_lengths words i Lmax = Done None
      /\ forall L, 2 <= L <= Lmax -> ~ block_matches words i L 1).
Proof.
  induction Lmax as [|m IH].
  - right. split; [reflexivity | intros; lia].
  - assert (Hskip : ~ block_matches words i (S m) 1 ->
             (exists L r,
                 try_lengths words i m = Done (Some (block words i L 0, i + r * L))
                 /\ 2 <= L <= S m /\ 2 <= r /\ occurs words i L r
                 /\ forall L', L < L' <= S m -> ~ block_matches words i L' 1)
             \/ (try_lengths words i m = Done None
                 /\ forall L, 2 <= L <= S m -> ~ block_matches words i L 1)).
    { intro Hno. destruct IH as [[L [r [E [HL [Hr [Hocc Hmax]]]]]]|[E Hnone]].
      - left. exists L, r.
        split; [exact E|]. split; [lia|]. split; [exact Hr|].
        split; [exact Hocc|].
        intros L' HL'. destruct (Nat.eq_dec L' (S m)) as [->|]; [exact Hno|].
        apply Hmax. lia.
      - right. split; [exact E|]. intros L HL.
        destruct (Nat.eq_dec L (S m)) as [->|]; [exact Hno|]. apply Hnone. lia. }
    cbn [try_lengths].
    destruct (2 <=? S m) eqn:H2.
    2:{ apply Nat.leb_gt in H2. right. split; [reflexivity | intros; lia]. }
    apply Nat.leb_le in H2.
    destruct (length words <=? i + S m) eqn:Hguard.
    { apply Nat.leb_le in Hguard. apply Hskip. intros [Hfit _]. lia. }
    apply Nat.leb_gt in Hguard.
    rewrite <- block_0.
    destruct (scan_repeats_total (length words) words i (S m) 1 (i + S m))
      as [r [E [Hle [Hall Hnot]]]]; [lia | lia | lia | lia |].
    rewrite E. cbn [bind fst snd].
    destruct (2 <=? r) eqn:Hr.
    + apply Nat.leb_le in Hr. left. exists (S m), r.
      split; [reflexivity|]. split; [lia|]. split; [exact Hr|].
      split; [split; [intros j Hj; apply Hall; lia | exact Hnot]|].
      intros; lia.
    + apply Nat.leb_gt in Hr. assert (r = 1) by lia. subst r.
      apply Hskip. exact Hnot.
Qed.

(** The outer [while] ends within its fuel, and what it appends to [result]
    is what the forward pass of the specification emits from the cursor. *)
Lemma pattern_while_total fuel words i result :
  i <= length words -> length words < fuel + i ->
  exists out,
    pattern_while fuel words i result = Done (result ++ out)
    /\ collapses words i out.
Proof.
  revert i result.
  induction fuel as [|fuel IH]; intros i result Hin Hfuel; [lia|].
  cbn [pattern_while].
  destruct (i <? length words) eqn:Hi.
  2:{ apply Nat.ltb_ge in Hi. exists []. rewrite app_nil_r.
      split; [reflexivity | now constructor]. }
  apply Nat.ltb_lt in Hi.
  destruct (try_lengths_spec words i (Nat.min 20 ((length words - i) / 2)))
    as [[L [r [E [HL [Hr [Hocc Hmax]]]]]]|[E Hnone]]; rewrite E; cbn [bind].
  - assert (Hend : i + r * L <= length words).
    { destruct Hocc as [Hall _]. destruct (Hall (r - 1)) as [Hfit _]; [lia|].
      replace (r * L) with ((r - 1) * L + L) by nia. lia. }
    destruct (IH (i + r * L) (result ++ block words i L 0)) as [out [Eo Ho]];
      [exact Hend | nia |].
    exists (block words i L 0 ++ out). rewrite app_assoc. split; [exact Eo|].
    apply collapses_repeat with (r := r); try assumption.
    intros L' [_ HL'] Hlt. apply Hmax. lia.
  - destruct (IH (S i) (result ++ [nth i words []])) as [out [Eo Ho]];
      [lia | lia |].
    exists (nth i words [] :: out). split.
    + rewrite Eo, <- app_assoc. reflexivity.
    + apply collapses_single; assumption.
Qed.

Lemma pattern_words_total words :
  exists out, pattern_words words = Done out /\ collapses words 0 out.
Proof.
  destruct (pattern_while_total (S (length words)) words 0 []) as [out H];
    [lia | lia |]. exists out. exact H.
Qed.

Lemma occurs_unique words i L r r' :
  occurs words i L r -> occurs words i L r' -> 1 <= r -> 1 <= r' -> r = r'.
Proof.
  intros [Ha Hn] [Ha' Hn'] Hr Hr'.
  destruct (Nat.lt_trichotomy r r') as [Hlt|[Heq|Hgt]]; [|exact Heq|].
  - exfalso. apply Hn, Ha'. lia.
  - exfalso. apply Hn', Ha. lia.
Qed.

(** The forward pass of the specification determines its output. *)
Lemma collapses_deterministic words i out out' :
  collapses words i out -> collapses words i out' -> out = out'.
Proof.
  intro H. revert out'.
  induction H as [i Hi|i L r out Hi HL Hr Hocc Hmax _ IH|i out Hi Hnone _ IH];
    intros out' H'; inversion H' as [? Hi'|? L' r' o' Hi' HL' Hr' Hocc' Hmax' Ho'
                                     |? o' Hi' Hnone' Ho']; subst;
    try lia.
  - reflexivity.
  - assert (L = L').
    { destruct (Nat.lt_trichotomy L L') as [Hlt|[Heq|Hgt]]; [|exact Heq|].
      - exfalso. apply (Hmax L' HL' Hlt). apply Hocc'. lia.
      - exfalso. apply (Hmax' L HL Hgt). apply Hocc. lia. }
    subst L'.
    assert (r = r') by (apply (occurs_unique words i L); assumption || lia).
    subst r'. f_equal. now apply IH.
  - exfalso. apply (Hnone' L HL). apply Hocc. lia.
  - exfalso. apply (Hnone L' HL'). apply Hocc'. lia.
  - f_equal. now apply IH.
Qed.

(** The forward pass only removes words. *)
Lemma collapses_subseq words i out :
  collapses words i out -> subseq out (skipn i words).
Proof.
  induction 1 as [i Hi|i L r out Hi HL Hr Hocc Hmax _ IH|i out Hi Hnone _ IH].
  - apply subseq_nil_l.
  - rewrite block_0, slice_firstn.
    rewrite <- (firstn_skipn L (skipn i words)) at 2.
    apply subseq_app; [apply subseq_refl|].
    rewrite skipn_skipn. eapply subseq_trans; [exact IH|].
    apply subseq_skipn_le. nia.
  - rewrite (skipn_nth_cons words i [] Hi). now constructor.
Qed.

(** The stage returns short texts as they are and otherwise joins what the
    forward pass emits. *)
Lemma removePatternRepeats_collapses text :
  exists out,
    collapses (words_of text) 0 out
    /\ removePatternRepeats text
       = if length (words_of text) <? 4 then text else join (str " ") out.
Proof.
  destruct (pattern_words_total (words_of text)) as [out [E H]].
  exists out. split; [exact H|].
  unfold removePatternRepeats. now rewrite E.
Qed.

(** C6.  The output of the pattern-repeat eliminator is determined by the
    forward pass of the specification: on a stream of at least four words
    it is the words that [collapses] emits from cursor 0 (at each cursor
    the longest pattern length between 2 and the smaller of 20 and half of
    what remains whose pattern is followed by a block matching it in at
    least 85 percent of the positions; the pattern is emitted once and the
    cursor moves past all its consecutive matching blocks; without such a
    length the word at the cursor is emitted and the cursor moves by one),
    joined by single spaces; a text of fewer than four words is returned as
    it is. *)
Theorem C6_pattern_forward_pass (text : jsstring) :
  exists out,
    collapses (words_of text) 0 out
    /\ (forall out', collapses (words_of text) 0 out' -> out' = out)
    /\ removePatternRepeats text
       = if length (words_of text) <? 4 then text else join (str " ") out.
Proof.
  destruct (removePatternRepeats_collapses text) as [out [H E]].
  exists out. split; [exact H|]. split; [|exact E].
  intros out' H'. now apply (collapses_deterministic (words_of text) 0).
Qed.

(** ** Non-growth *)

Lemma removePatternRepeats_words text :
  exists out,
    subseq out (words_of text)
    /\ removePatternRepeats text
       = if length (words_of text) <? 4 then text else join (str " ") out.
Proof.
  destruct (removePatternRepeats_collapses text) as [out [H E]].
  exists out. split; [|exact E]. now apply collapses_subseq in H.
Qed.

Lemma join_subseq_length out text :
  subseq out (words_of text) ->
  words_of (join (str " ") out) = out
  /\ length (join (str " ") out) <= length text.
Proof.
  intro H. split.
  - apply words_of_join. apply (subseq_Forall _ _ _ H), words_of_are_words.
  - etransitivity; [|apply length_join_words].
    rewrite !length_join_sp. apply subseq_weight in H. lia.
Qed.

(** C4, as the code has it.  Pattern-repeat elimination and
    adjacent-duplicate collapsing only remove words: the words of the output
    are a subsequence of the words of the input, so there are no more of
    them, and the output has no more characters than the input.
    Sentence-repeat elimination keeps no more sentences than it was
    given. *)
Theorem C4_non_growth (text : jsstring) :
  subseq (words_of (removePatternRepeats text)) (words_of text)
  /\ token_count (removePatternRepeats text) <= token_count text
  /\ length (removePatternRepeats text) <= length text
  /\ subseq (words_of (removeAdjacentDuplicates text)) (words_of text)
  /\ token_count (removeAdjacentDuplicates text) <= token_count text
  /\ length (removeAdjacentDuplicates text) <= length text
  /\ length (fst (sentence_loop (sentences_of text) ([], [])))
     <= length (sentences_of text).
Proof.
  assert (Hp : subseq (words_of (removePatternRepeats text)) (words_of text)
               /\ length (removePatternRepeats text) <= length text).
  { destruct (removePatternRepeats_words text) as [out [Hsub E]]. rewrite E.
    destruct (length (words_of text) <? 4).
    - split; [apply subseq_refl | lia].
    - destruct (join_subseq_length out text Hsub) as [-> Hlen]. now split. }
  assert (Ha : subseq (words_of (removeAdjacentDuplicates text)) (words_of text)
               /\ length (removeAdjacentDuplicates text) <= length text).
  { unfold removeAdjacentDuplicates. rewrite adjacent_words_spec.
    pose proof (collapse_spec_subseq (words_of text)) as Hsub.
    destruct (join_subseq_length _ text Hsub) as [-> Hlen]. now split. }
  destruct Hp as [Hp1 Hp2], Ha as [Ha1 Ha2]. unfold token_count.
  repeat split; try assumption; try (now apply subseq_length).
  apply (sentence_loop_count (sentences_of text) ([], [])).
Qed.

(** The sentence stage re-punctuates: it puts a period and a space between
    the kept sentences and a period after the last, so its output, and the
    pipeline's, can have more words and more characters than the input. *)
Lemma C4_sentence_stage_grows :
  let text := str "stocks rallied today.bonds fell sharply" in
  removeSentenceRepeats text = str "stocks rallied today. bonds fell sharply."
  /\ token_count text < token_count (removeSentenceRepeats text)
  /\ length text < length (removeSentenceRepeats text)
  /\ token_count text < token_count (removeDuplicateText [text])
  /\ length text < length (removeDuplicateText [text]).
Proof. repeat split; vm_compute; lia. Qed.

(** ** Idempotence *)

Lemma collapse_ws_word w s :
  Forall (fun c => is_space c = false) w ->
  collapse_ws false (w ++ s) = w ++ collapse_ws false s.
Proof.
  induction 1 as [|c w Hc _ IH]; simpl; [reflexivity|]. now rewrite Hc, IH.
Qed.

Lemma join_words_head w ws :
  Forall is_word (w :: ws) ->
  exists c t, join (str " ") (w :: ws) = c :: t /\ is_space c = false.
Proof.
  intro H. inversion H as [|? ? [Hne Hw] _]; subst.
  destruct w as [|c w]; [congruence|]. inversion Hw; subst.
  destruct ws; simpl; eauto.
Qed.

Lemma replace_ws_join ws :
  Forall is_word ws -> replace_ws (join (str " ") ws) = join (str " ") ws.
Proof.
  unfold replace_ws.
  induction 1 as [|w ws [Hne Hw] Hws IH]; [reflexivity|].
  destruct ws as [|w2 ws].
  - simpl. rewrite <- (app_nil_r w) at 1.
    rewrite collapse_ws_word by exact Hw. simpl. apply app_nil_r.
  - rewrite join_cons2, collapse_ws_word by exact Hw. f_equal.
    destruct (join_words_head w2 ws Hws) as [c [t [E Hc]]].
    rewrite E in *.
    change (str " " ++ c :: t) with (" "%char :: c :: t).
    cbn [collapse_ws]. change (is_space " "%char) with true. cbn iota.
    rewrite Hc. f_equal. cbn [collapse_ws] in IH. rewrite Hc in IH. exact IH.
Qed.

Lemma join_words_last w ws :
  Forall is_word (w :: ws) -> starts_ok (rev (join (str " ") (w :: ws))).
Proof.
  revert w. induction ws as [|w2 ws IH]; intros w H;
    inversion H as [|? ? [Hne Hw] Hws]; subst.
  - simpl. destruct (exists_last Hne) as [t [c ->]].
    rewrite rev_app_distr. simpl.
    apply Forall_app in Hw. destruct Hw as [_ Hc]. now inversion Hc.
  - rewrite join_cons2, !rev_app_distr.
    specialize (IH w2 Hws).
    destruct (join_words_head w2 ws Hws) as [c [t [E _]]].
    rewrite E in *.
    destruct (rev (c :: t)) as [|c' t'] eqn:Er; [|exact IH].
    apply (f_equal (@rev ascii)) in Er. rewrite rev_involutive in Er.
    discriminate.
Qed.

(** Words joined by single spaces are already normalised. *)
Lemma normalised_join ws :
  Forall is_word ws ->
  trim (replace_ws (join (str " ") ws)) = join (str " ") ws.
Proof.
  intro H. rewrite (replace_ws_join ws H).
  destruct ws as [|w ws]; [reflexivity|].
  apply trim_fix; [|apply join_words_last, H].
  destruct (join_words_head w ws H) as [c [t [-> Hc]]]. exact Hc.
Qed.

Lemma adjacent_words_are_words text :
  Forall is_word (adjacent_words (words_of text)).
Proof.
  rewrite adjacent_words_spec.
  apply (subseq_Forall _ _ _ (collapse_spec_subseq _)), words_of_are_words.
Qed.

Lemma removeAdjacentDuplicates_idempotent text :
  removeAdjacentDuplicates (removeAdjacentDuplicates text)
  = removeAdjacentDuplicates text.
Proof.
  unfold removeAdjacentDuplicates.
  rewrite words_of_join by apply adjacent_words_are_words.
  now rewrite !adjacent_words_spec, collapse_spec_idempotent.
Qed.

Lemma removeDuplicateText_shape textLines :
  exists text, removeDuplicateText textLines = removeAdjacentDuplicates text.
Proof.
  unfold removeDuplicateText.
  destruct (length textLines =? 0); [now exists []|].
  destruct (negb _); [now exists []|]. eauto.
Qed.

(** C1, as the code has it.  Running the pipeline on its own output gives
    that output again whenever pattern-repeat elimination and
    sentence-repeat elimination both leave the output as it is. *)
Theorem C1_second_run_on_fixed_point (textLines : list jsstring) :
  removePatternRepeats (removeDuplicateText textLines)
  = removeDuplicateText textLines ->
  removeSentenceRepeats (removeDuplicateText textLines)
  = removeDuplicateText textLines ->
  removeDuplicateText [removeDuplicateText textLines]
  = removeDuplicateText textLines.
Proof.
  destruct (removeDuplicateText_shape textLines) as [text ->].
  intros Hp Hs.
  assert (Hn : trim (replace_ws (removeAdjacentDuplicates text))
               = removeAdjacentDuplicates text)
    by apply normalised_join, adjacent_words_are_words.
  unfold removeDuplicateText. cbn [length Nat.eqb join].
  rewrite Hn.
  destruct (nonempty (removeAdjacentDuplicates text)) eqn:Hne; cbn [negb].
  - rewrite Hn, Hp, Hs. apply removeAdjacentDuplicates_idempotent.
  - destruct (removeAdjacentDuplicates text); [reflexivity | discriminate].
Qed.

Lemma C1_second_run_on_fixed_point_witness :
  removeDuplicateText
    [removeDuplicateText
       [str "the market is up today. the market is up today. volatility remains high."]]
  = removeDuplicateText
      [str "the market is up today. the market is up today. volatility remains high."].
Proof.
  apply (C1_second_run_on_fixed_point
           [str "the market is up today. the market is up today. volatility remains high."]);
    vm_compute; reflexivity.
Defined.

(** The pipeline is not idempotent.  Collapsing the doubled word of
    [go up up go up now] leaves [go up go up now], in which the second run
    finds the repeated pattern [go up]. *)
Lemma C1_second_run_changes_output :
  removeDuplicateText [str "go up up go up now"] = str "go up go up now"
  /\ removeDuplicateText [removeDuplicateText [str "go up up go up now"]]
     = str "go up now"
  /\ removeDuplicateText [removeDuplicateText [str "go up up go up now"]]
     <> removeDuplicateText [str "go up up go up now"].
Proof. repeat split; vm_compute; (reflexivity || discriminate). Qed.

(** * Further properties of the cleaning pipeline *)

(** ** Normalisation of white space *)

Lemma trimStart_app_nonblank a b :
  trimStart a <> [] -> trimStart (a ++ b) = trimStart a ++ b.
Proof.
  induction a as [|c a IH]; simpl; [congruence|].
  destruct (is_space c); [exact IH | reflexivity].
Qed.

Lemma trimStart_app_blank a b :
  trimStart a = [] -> trimStart (a ++ b) = trimStart b.
Proof.
  induction a as [|c a IH]; simpl; [reflexivity|].
  destruct (is_space c); [exact IH | discriminate].
Qed.

Lemma trimEnd_cons_keep x s :
  trimEnd s <> [] -> trimEnd (x :: s) = x :: trimEnd s.
Proof.
  unfold trimEnd. intro H. simpl.
  rewrite trimStart_app_nonblank, rev_app_distr; [reflexivity|].
  intro E. rewrite E in H. now apply H.
Qed.

Lemma trimEnd_cons_blank x s :
  trimEnd s = [] -> is_space x = true -> trimEnd (x :: s) = [].
Proof.
  unfold trimEnd. intros H Hx. simpl.
  rewrite trimStart_app_blank.
  - simpl. now rewrite Hx.
  - apply (f_equal (@rev ascii)) in H. now rewrite rev_involutive in H.
Qed.

Lemma trimEnd_cons_nonspace x s :
  is_space x = false -> trimEnd (x :: s) = x :: trimEnd s.
Proof.
  intro Hx. destruct (trimEnd s) as [|c t] eqn:E.
  - unfold trimEnd in *. simpl. rewrite trimStart_app_blank.
    + simpl. now rewrite Hx.
    + apply (f_equal (@rev ascii)) in E. now rewrite rev_involutive in E.
  - rewrite <- E. apply trimEnd_cons_keep. congruence.
Qed.

Lemma trim_trimEnd s : trim s = trimEnd (trimStart s).
Proof. reflexivity. Qed.

Lemma trimStart_collapse b t : trimStart (collapse_ws b t) = collapse_ws true t.
Proof.
  revert b. induction t as [|c t IH]; intro b; simpl; [reflexivity|].
  destruct (is_space c) eqn:Ec.
  - destruct b; [apply IH|]. simpl. apply IH.
  - simpl. now rewrite Ec.
Qed.

Lemma words_flag t :
  filter nonempty (split_re is_space true t) = words_of t.
Proof.
  unfold words_of, split. destruct t as [|c t]; [reflexivity|].
  simpl. destruct (is_space c); reflexivity.
Qed.

Lemma words_of_cons_space c t :
  is_space c = true -> words_of (c :: t) = words_of t.
Proof.
  intro Hc. unfold words_of at 1, split. simpl. rewrite Hc. simpl.
  apply words_flag.
Qed.

Lemma join_cons_char sep c p l :
  join sep ((c :: p) :: l) = c :: join sep (p :: l).
Proof. destruct l; reflexivity. Qed.

Lemma join_words_nil ws :
  Forall is_word ws -> join (str " ") ws = [] -> ws = [].
Proof.
  intros H E. destruct ws as [|w ws]; [reflexivity|].
  destruct (join_words_head w ws H) as [c [t [E' _]]]. congruence.
Qed.

(** What is left of a collapsed string once its trailing space is cut: the
    pieces of the split, of which only the first may be empty, joined by
    single spaces. *)
Lemma trimEnd_collapse t :
  trimEnd (collapse_ws true t) = join (str " ") (words_of t)
  /\ trimEnd (collapse_ws false t)
     = match split_re is_space false t with
       | p :: r => join (str " ") (p :: filter nonempty r)
       | [] => []
       end.
Proof.
  induction t as [|c t [IHt IHf]]; [split; reflexivity|].
  destruct (is_space c) eqn:Ec.
  - split.
    + rewrite words_of_cons_space by exact Ec. simpl. rewrite Ec. exact IHt.
    + simpl. rewrite Ec, words_flag.
      destruct (trimEnd (collapse_ws true t)) as [|d u] eqn:E.
      * rewrite trimEnd_cons_blank by (exact E || reflexivity).
        symmetry in IHt. apply join_words_nil in IHt;
          [|apply words_of_are_words]. now rewrite IHt.
      * rewrite trimEnd_cons_keep by congruence. rewrite E, IHt.
        destruct (words_of t) as [|w ws]; [discriminate | reflexivity].
  - assert (E : trimEnd (c :: collapse_ws false t)
                = match split_re is_space false (c :: t) with
                  | p :: r => join (str " ") (p :: filter nonempty r)
                  | [] => []
                  end).
    { rewrite trimEnd_cons_nonspace by exact Ec. rewrite IHf.
      cbn [split_re]. rewrite Ec.
      destruct (split_re is_space false t) as [|p r] eqn:Es.
      - now apply split_re_not_nil in Es.
      - symmetry. apply join_cons_char. }
    split; [|cbn [collapse_ws]; rewrite Ec; exact E].
    cbn [collapse_ws]. rewrite Ec, E. unfold words_of, split.
    cbn [split_re]. rewrite Ec.
    destruct (split_re is_space false t) as [|p r]; reflexivity.
Qed.

Lemma trim_replace_ws_words t :
  trim (replace_ws t) = join (str " ") (words_of t).
Proof.
  rewrite trim_trimEnd. unfold replace_ws.
  rewrite trimStart_collapse. apply trimEnd_collapse.
Qed.

(** X1.  Collapsing the runs of white space and trimming gives exactly the
    words of the string joined by single spaces; doing it a second time, as
    [removeDuplicateText] does, changes nothing. *)
Theorem normalise_is_join_of_words (t : jsstring) :
  trim (replace_ws t) = join (str " ") (words_of t)
  /\ trim (replace_ws (trim (replace_ws t))) = trim (replace_ws t).
Proof.
  split; [apply trim_replace_ws_words|]. rewrite !trim_replace_ws_words.
  now rewrite words_of_join by apply words_of_are_words.
Qed.

(** The pipeline as a function of the words of its lines. *)
Lemma removeDuplicateText_by_words textLines :
  removeDuplicateText textLines
  = let cleanText := join (str " ") (words_of (join (str " ") textLines)) in
    if nonempty cleanText
    then removeAdjacentDuplicates
           (removeSentenceRepeats (removePatternRepeats cleanText))
    else [].
Proof.
  unfold removeDuplicateText. rewrite !trim_replace_ws_words.
  rewrite (words_of_join (words_of (join (str " ") textLines)))
    by apply words_of_are_words.
  cbn zeta.
  destruct textLines as [|l ls]; [reflexivity|]. cbn [length Nat.eqb].
  destruct (nonempty _); reflexivity.
Qed.

(** X2.  The pipeline sees its input only through the words of the lines:
    two arrays of lines whose concatenations have the same words, however
    they are cut into lines and whatever white space separates them, give
    the same result. *)
Theorem pipeline_depends_on_words_only (lines1 lines2 : list jsstring) :
  words_of (join (str " ") lines1) = words_of (join (str " ") lines2) ->
  removeDuplicateText lines1 = removeDuplicateText lines2.
Proof.
  intro H. rewrite !removeDuplicateText_by_words. now rewrite H.
Qed.

Lemma pipeline_depends_on_words_only_witness :
  removeDuplicateText [str "  stocks   rose"; str "today "; str "and bonds fell"]
  = removeDuplicateText [str "stocks rose today and"; str "bonds fell"].
Proof.
  apply (pipeline_depends_on_words_only
           [str "  stocks   rose"; str "today "; str "and bonds fell"]
           [str "stocks rose today and"; str "bonds fell"]).
  vm_compute. reflexivity.
Defined.

(** ** The adjacent-duplicate collapser *)

Lemma collapse_after_chain r ws : chain_ok r (collapse_after r ws).
Proof.
  revert r. induction ws as [|w ws IH]; intro r; simpl; [exact I|].
  destruct (ci_equal w r) eqn:E; [apply IH|]. simpl. split; [exact E | apply IH].
Qed.

Lemma collapse_after_fixed r ws :
  collapse_after r ws = ws <-> chain_ok r ws.
Proof.
  split.
  - intros <-. apply collapse_after_chain.
  - revert r. induction ws as [|w ws IH]; intros r H; simpl; [reflexivity|].
    destruct H as [E H]. rewrite E. f_equal. now apply IH.
Qed.

Lemma collapse_spec_fixed ws :
  collapse_spec ws = ws <-> no_adjacent_duplicates ws.
Proof.
  destruct ws as [|w ws]; simpl; [tauto|].
  rewrite <- collapse_after_fixed. split; [now intros [= ->] | now intros ->].
Qed.

Lemma join_words_eq ws ws' :
  Forall is_word ws -> Forall is_word ws' ->
  join (str " ") ws = join (str " ") ws' -> ws = ws'.
Proof.
  intros H H' E. rewrite <- (words_of_join ws H), <- (words_of_join ws' H').
  now rewrite E.
Qed.

Lemma adjacent_output_chain text :
  no_adjacent_duplicates (words_of (removeAdjacentDuplicates text)).
Proof.
  unfold removeAdjacentDuplicates.
  rewrite words_of_join by apply adjacent_words_are_words.
  rewrite adjacent_words_spec. apply collapse_spec_fixed.
  apply collapse_spec_idempotent.
Qed.

(** X3.  In the output of the adjacent-duplicate collapser no word is
    case-insensitively equal to the word before it; applying the collapser
    to its own output changes nothing; and the collapser returns the words
    of its input unchanged exactly when the input has no such pair. *)
Theorem adjacent_collapser_output (text : jsstring) :
  no_adjacent_duplicates (words_of (removeAdjacentDuplicates text))
  /\ removeAdjacentDuplicates (removeAdjacentDuplicates text)
     = removeAdjacentDuplicates text
  /\ (removeAdjacentDuplicates text = join (str " ") (words_of text)
      <-> no_adjacent_duplicates (words_of text)).
Proof.
  split; [|split].
  - apply adjacent_output_chain.
  - apply removeAdjacentDuplicates_idempotent.
  - unfold removeAdjacentDuplicates. rewrite <- collapse_spec_fixed.
    rewrite adjacent_words_spec. split; [|now intros ->].
    apply join_words_eq; [|apply words_of_are_words].
    rewrite <- adjacent_words_spec. apply adjacent_words_are_words.
Qed.

(** X4.  The result of the pipeline is in normal form: it is its own words
    joined by single spaces, so it has no white space at either end and no
    white space other than single spaces between words, and no word of it is
    case-insensitively equal to the word before it. *)
Theorem pipeline_output_normal_form (textLines : list jsstring) :
  removeDuplicateText textLines
  = join (str " ") (words_of (removeDuplicateText textLines))
  /\ trim (replace_ws (removeDuplicateText textLines))
     = removeDuplicateText textLines
  /\ no_adjacent_duplicates (words_of (removeDuplicateText textLines)).
Proof.
  destruct (removeDuplicateText_shape textLines) as [text ->].
  assert (E : removeAdjacentDuplicates text
              = join (str " ") (words_of (removeAdjacentDuplicates text))).
  { unfold removeAdjacentDuplicates at 2.
    now rewrite words_of_join by apply adjacent_words_are_words. }
  split; [exact E|]. split.
  - rewrite trim_replace_ws_words. now rewrite <- E.
  - apply adjacent_output_chain.
Qed.

(** ** The sentence-repeat eliminator *)

Lemma ForallOrdPairs_snoc {A} (R : A -> A -> Prop) l x :
  ForallOrdPairs R l -> Forall (fun a => R a x) l ->
  ForallOrdPairs R (l ++ [x]).
Proof.
  induction 1 as [|a l Ha Hl IH]; intro Hx; simpl.
  - repeat constructor.
  - inversion Hx; subst. constructor; [|now apply IH].
    apply Forall_app. split; [exact Ha | now constructor].
Qed.

Lemma content_words_trim s : content_words (trim s) = content_words s.
Proof. unfold content_words. now rewrite trim_idempotent. Qed.

Lemma subseq_snoc_skip {A} (l1 l2 : list A) x :
  subseq l1 l2 -> subseq l1 (l2 ++ [x]).
Proof.
  intro H. rewrite <- (app_nil_r l1). apply subseq_app; [exact H|].
  apply subseq_nil_l.
Qed.

Lemma sentence_step_kept_ok src st s :
  kept_ok src st -> kept_ok (src ++ [s]) (sentence_step st s).
Proof.
  intros [Hreg [Hcw [Hfar Hsub]]].
  pose proof (sentence_step_registered st s Hreg) as Hreg'.
  split; [exact Hreg'|]. clear Hreg'.
  destruct st as [uniq seen]. unfold sentence_step. cbn [fst snd] in *.
  rewrite map_app. cbn [map].
  destruct (isDuplicate (fingerprint_of s) seen) eqn:Hdup; cbn [negb andb fst].
  { repeat split; try assumption. now apply subseq_snoc_skip. }
  destruct (3 <=? length (content_words s)) eqn:H3; cbn [fst].
  2:{ repeat split; try assumption. now apply subseq_snoc_skip. }
  apply Nat.leb_le in H3. split; [|split].
  - apply Forall_app. split; [exact Hcw|]. constructor; [|constructor].
    now rewrite content_words_trim.
  - apply ForallOrdPairs_snoc; [exact Hfar|].
    apply Forall_forall. intros k Hk. unfold far_apart.
    rewrite fingerprint_of_trim. intro Hsim.
    assert (Hd : isDuplicate (fingerprint_of s) seen = true).
    { apply isDuplicate_iff. exists (fingerprint_of k).
      split; [now apply Hreg | exact Hsim]. }
    congruence.
  - apply subseq_app; [exact Hsub | apply subseq_refl].
Qed.

Lemma sentence_loop_kept_ok l src st :
  kept_ok src st -> kept_ok (src ++ l) (sentence_loop l st).
Proof.
  revert src st. induction l as [|s l IH]; intros src st H.
  - now rewrite app_nil_r.
  - rewrite sentence_loop_cons.
    replace (src ++ s :: l) with ((src ++ [s]) ++ l)
      by now rewrite <- app_assoc.
    now apply IH, sentence_step_kept_ok.
Qed.

Lemma removeSentenceRepeats_kept text :
  2 <= length (sentences_of text) ->
  let kept := fst (sentence_loop (sentences_of text) ([], [])) in
  removeSentenceRepeats text
  = join (str ". ") kept ++ (if 0 <? length kept then str "." else []).
Proof.
  intros Hlen kept. unfold removeSentenceRepeats.
  destruct (length (sentences_of text) <=? 1) eqn:El; [|reflexivity].
  apply Nat.leb_le in El. lia.
Qed.

(** X5.  When the text has at least two sentences, the sentences that the
    eliminator joins into its output are trimmed input sentences in their
    original order; each has at least three content words; and the
    fingerprint of none of them overlaps the fingerprint of one kept before
    it by more than 0.8. *)
Theorem kept_sentences_invariant (text : jsstring) :
  2 <= length (sentences_of text) ->
  exists kept,
    removeSentenceRepeats text
    = join (str ". ") kept ++ (if 0 <? length kept then str "." else [])
    /\ subseq kept (map trim (sentences_of text))
    /\ Forall (fun k => 3 <= length (content_words k)) kept
    /\ ForallOrdPairs far_apart kept.
Proof.
  intro Hlen. exists (fst (sentence_loop (sentences_of text) ([], []))).
  split; [now apply removeSentenceRepeats_kept|].
  destruct (sentence_loop_kept_ok (sentences_of text) [] ([], []))
    as [_ [Hcw [Hfar Hsub]]].
  - split; [intros ? []|]. repeat constructor.
  - now repeat split.
Qed.

Lemma kept_sentences_invariant_witness :
  exists kept,
    removeSentenceRepeats
      (str "Rates were held steady. ok then. Rates were held steady again! Stocks rallied after that.")
    = join (str ". ") kept ++ (if 0 <? length kept then str "." else [])
    /\ subseq kept
         (map trim
            (sentences_of
               (str "Rates were held steady. ok then. Rates were held steady again! Stocks rallied after that.")))
    /\ Forall (fun k => 3 <= length (content_words k)) kept
    /\ ForallOrdPairs far_apart kept.
Proof.
  apply (kept_sentences_invariant
           (str "Rates were held steady. ok then. Rates were held steady again! Stocks rallied after that.")).
  vm_compute. lia.
Defined.

Lemma sentence_loop_all_short l st :
  Forall (fun s => length (content_words s) < 3) l -> sentence_loop l st = st.
Proof.
  induction 1 as [|s l Hs _ IH]; [reflexivity|].
  rewrite sentence_loop_cons.
  replace (sentence_step st s) with st; [exact IH|].
  symmetry. apply sentence_step_dropped_iff. now right.
Qed.

(** X6.  When the text has at least two sentences and every one of them has
    fewer than three content words (words longer than two characters), the
    eliminator returns the empty string: nothing of the text is left. *)
Theorem short_sentences_erase_text (text : jsstring) :
  2 <= length (sentences_of text) ->
  Forall (fun s => length (content_words s) < 3) (sentences_of text) ->
  removeSentenceRepeats text = [].
Proof.
  intros Hlen Hshort. rewrite removeSentenceRepeats_kept by exact Hlen.
  now rewrite sentence_loop_all_short.
Qed.

Lemma all_short_check l :
  forallb (fun s => length (content_words s) <? 3) l = true ->
  Forall (fun s => length (content_words s) < 3) l.
Proof.
  intro H. apply Forall_forall. intros s Hs.
  rewrite forallb_forall in H. now apply Nat.ltb_lt, H.
Qed.

Lemma short_sentences_erase_text_witness :
  removeSentenceRepeats (str "Thank you. Good day! Is it up? No, it is not.")
  = [].
Proof.
  apply short_sentences_erase_text.
  - vm_compute. lia.
  - apply all_short_check. vm_compute. reflexivity.
Defined.

(** ** The similarity scorer *)

Lemma strict_eq_sym x y : strict_eq x y = strict_eq y x.
Proof.
  destruct x as [a|], y as [b|]; simpl; try reflexivity.
  unfold jsstring_eqb.
  destruct (list_eq_dec ascii_dec a b), (list_eq_dec ascii_dec b a);
    congruence.
Qed.

Lemma count_matches_sym k i a b : count_matches k i a b 0 = count_matches k i b a 0.
Proof.
  rewrite !count_matches_filter. do 2 f_equal.
  apply filter_ext. intro j. apply strict_eq_sym.
Qed.

Lemma count_matches_same k a :
  k <= length a -> count_matches k 0 a a 0 = k.
Proof.
  intro H. rewrite count_matches_filter. simpl.
  rewrite <- (length_seq k 0) at 2. f_equal.
  apply forallb_filter_id. apply forallb_forall. intros j Hj.
  apply in_seq in Hj. rewrite strict_eq_in_range by lia.
  apply jsstring_eqb_refl.
Qed.

Lemma ratio_bounds m n : m <= n -> 1 <= n -> (0 <= ratio m n <= 1)%Q.
Proof.
  intros Hm Hn. unfold ratio, Qle. cbn [Qnum Qden].
  rewrite <- (Znat.positive_nat_Z (Pos.of_nat n)), Nat2Pos.id by lia. lia.
Qed.

Lemma ratio_one n : 1 <= n -> (ratio n n == 1)%Q.
Proof.
  intro Hn. unfold ratio, Qeq. cbn [Qnum Qden].
  rewrite <- (Znat.positive_nat_Z (Pos.of_nat n)), Nat2Pos.id by lia. lia.
Qed.

Lemma length_split_re sep b s : 1 <= length (split_re sep b s).
Proof.
  pose proof (split_re_not_nil sep b s).
  destruct (split_re sep b s); simpl; [congruence | lia].
Qed.

(** X7.  The score of [calculateSimilarity] does not depend on the order of
    its two arguments, lies between 0 and 1, and is 1 when the two strings
    are the same. *)
Theorem similarity_symmetric_bounded (str1 str2 : jsstring) :
  calculateSimilarity str1 str2 = calculateSimilarity str2 str1
  /\ (0 <= calculateSimilarity str1 str2 <= 1)%Q
  /\ (calculateSimilarity str1 str1 == 1)%Q.
Proof.
  unfold calculateSimilarity, similarity_of_words.
  pose proof (length_split_re is_space false str1) as H1.
  pose proof (length_split_re is_space false str2) as H2.
  fold (split is_space str1) in *. fold (split is_space str2) in *.
  split; [|split].
  - rewrite (Nat.max_comm (length (split is_space str2))),
      (Nat.min_comm (length (split is_space str2))).
    now rewrite count_matches_sym.
  - destruct (Nat.max _ _ =? 0) eqn:E; [apply Nat.eqb_eq in E; lia|].
    apply ratio_bounds; [|lia].
    etransitivity; [apply count_matches_le|]. lia.
  - rewrite Nat.max_id, Nat.min_id.
    destruct (length (split is_space str1) =? 0) eqn:E;
      [apply Nat.eqb_eq in E; lia|].
    rewrite count_matches_same by lia. now apply ratio_one.
Qed.

(** ** The pattern-repeat eliminator *)

Lemma block_matches_b_iff words i L j :
  block_matches_b words i L j = true <-> block_matches words i L j.
Proof.
  unfold block_matches_b, block_matches.
  now rewrite andb_true_iff, !Nat.leb_le.
Qed.

Lemma has_repeat_iff words :
  has_repeat words = true
  <-> exists i L, candidate words i L /\ block_matches words i L 1.
Proof.
  unfold has_repeat, candidate. split.
  - intro H. apply existsb_exists in H. destruct H as [i [Hi H]].
    apply existsb_exists in H. destruct H as [L [HL H]].
    apply in_seq in HL. apply block_matches_b_iff in H.
    exists i, L. split; [lia | exact H].
  - intros [i [L [HL H]]].
    assert (Hi : i < length words).
    { destruct H as [Hfit _]. lia. }
    apply existsb_exists. exists i. split; [apply in_seq; lia|].
    apply existsb_exists. exists L. split; [apply in_seq; lia|].
    now apply block_matches_b_iff.
Qed.

(** Without a repeat anywhere the forward pass emits every word. *)
Lemma collapses_identity words :
  (forall i L, candidate words i L -> ~ block_matches words i L 1) ->
  forall k i, length words - i = k -> collapses words i (skipn i words).
Proof.
  intros Hnone. induction k as [|k IH]; intros i Hk.
  - rewrite skipn_all2 by lia. constructor. lia.
  - rewrite (skipn_nth_cons words i []) by lia.
    apply collapses_single; [lia | apply Hnone | apply IH; lia].
Qed.

(** With a repeat at or after the cursor the forward pass emits fewer words
    than remain. *)
Lemma collapses_shrinks words i out :
  collapses words i out ->
  (exists i' L, i <= i' /\ candidate words i' L /\ block_matches words i' L 1) ->
  length out < length words - i.
Proof.
  induction 1 as [i Hi|i L r out Hi HL Hr Hocc Hmax Hout IH|i out Hi Hnone Hout IH];
    intros [i' [L' [Hle [Hc Hm]]]].
  - destruct Hm as [Hfit _]. unfold candidate in Hc. lia.
  - assert (Hfit : i + (r - 1) * L + L <= length words).
    { destruct Hocc as [Hall _]. now destruct (Hall (r - 1)); [lia|]. }
    assert (Hend : i + r * L <= length words).
    { replace (r * L) with ((r - 1) * L + L) by nia. lia. }
    apply collapses_subseq, subseq_length in Hout.
    rewrite length_skipn in Hout.
    rewrite length_app, block_0, length_slice by nia.
    unfold candidate in HL. nia.
  - destruct (Nat.eq_dec i' i) as [->|Hne].
    + now apply Hnone in Hm.
    + assert (length out < length words - S i).
      { apply IH. exists i', L'. split; [lia | now split]. }
      simpl. lia.
Qed.

(** X8.  On a text of at least four words the pattern-repeat eliminator
    returns strictly fewer words exactly when, at some position of the word
    stream, a pattern of a candidate length is followed by a block that
    matches it; otherwise, and on every shorter text, the words of the
    output are the words of the input. *)
Theorem pattern_stage_changes_iff_repeat (text : jsstring) :
  if (4 <=? length (words_of text)) && has_repeat (words_of text)
  then token_count (removePatternRepeats text) < token_count text
  else words_of (removePatternRepeats text) = words_of text.
Proof.
  destruct (removePatternRepeats_collapses text) as [out [Hc E]].
  rewrite E. unfold token_count.
  destruct (4 <=? length (words_of text)) eqn:H4; cbn [andb].
  - apply Nat.leb_le in H4.
    replace (length (words_of text) <? 4) with false
      by (symmetry; apply Nat.ltb_ge; lia).
    assert (Hw : words_of (join (str " ") out) = out).
    { apply words_of_join.
      apply (subseq_Forall _ _ _ (collapses_subseq _ _ _ Hc)).
      apply words_of_are_words. }
    rewrite Hw. destruct (has_repeat (words_of text)) eqn:Hr.
    + apply has_repeat_iff in Hr. destruct Hr as [i [L [HL Hm]]].
      pose proof (collapses_shrinks _ _ _ Hc) as Hs.
      rewrite Nat.sub_0_r in Hs. apply Hs.
      exists i, L. split; [lia | now split].
    + apply (collapses_deterministic (words_of text) 0); [exact Hc|].
      apply (collapses_identity (words_of text)) with (k := length (words_of text));
        [|lia].
      intros i L HL Hm.
      assert (has_repeat (words_of text) = true)
        by (apply has_repeat_iff; eauto).
      congruence.
  - apply Nat.leb_gt in H4.
    replace (length (words_of text) <? 4) with true
      by (symmetry; apply Nat.ltb_lt; lia).
    reflexivity.
Qed.

(** * Properties of the URL patterns *)

Lemma take_while_Forall cls s : Forall (fun c => cls c = true) (take_while cls s).
Proof.
  induction s as [|c s IH]; simpl; [constructor|].
  destruct (cls c) eqn:E; constructor; assumption.
Qed.

Lemma take_while_app cls g post :
  Forall (fun c => cls c = true) g -> separated cls post ->
  take_while cls (g ++ post) = g.
Proof.
  intros Hg Hp. induction Hg as [|c g Hc _ IH]; simpl.
  - destruct post as [|d post]; [reflexivity|]. simpl in *. now rewrite Hp.
  - now rewrite Hc, IH.
Qed.

Lemma starts_with_prefix p s :
  starts_with p s = true -> exists rest, s = p ++ rest.
Proof.
  revert s. induction p as [|a p IH]; intros s H; simpl in *; [eauto|].
  destruct s as [|c s]; [discriminate|].
  apply andb_true_iff in H. destruct H as [Ha Hp].
  apply Ascii.eqb_eq in Ha. subst c.
  destruct (IH s Hp) as [rest ->]. eauto.
Qed.

Lemma match_at_some p cls s g :
  match_at p cls s = Some g -> g <> [] /\ Forall (fun c => cls c = true) g.
Proof.
  unfold match_at. destruct (starts_with p s); [|discriminate].
  destruct (nonempty _) eqn:E; [|discriminate]. intros [= <-]. split.
  - intro H. rewrite H in E. discriminate.
  - apply take_while_Forall.
Qed.

Lemma first_match_at_some ps cls s g :
  first_match_at ps cls s = Some g ->
  g <> [] /\ Forall (fun c => cls c = true) g.
Proof.
  induction ps as [|p ps IH]; simpl; [discriminate|].
  destruct (match_at p cls s) as [g'|] eqn:E; [|exact IH].
  intros [= <-]. now apply match_at_some in E.
Qed.

Lemma search_some ps cls s g :
  search ps cls s = Some g -> g <> [] /\ Forall (fun c => cls c = true) g.
Proof.
  induction s as [|c s IH]; simpl;
    destruct (first_match_at ps cls _) as [g'|] eqn:E;
    try discriminate; try exact IH;
    intros [= <-]; now apply first_match_at_some in E.
Qed.

(** No pattern is found in a string all of whose characters pass a test
    that some character of every pattern fails. *)
Lemma search_none (f : ascii -> bool) ps cls s :
  Forall (fun p => forallb f p = false) ps ->
  forallb f s = true -> search ps cls s = None.
Proof.
  intros Hps.
  assert (Hat : forall t, forallb f t = true -> first_match_at ps cls t = None).
  { intros t Ht. induction Hps as [|p ps Hp _ IH]; [reflexivity|].
    simpl. unfold match_at. destruct (starts_with p t) eqn:E; [|exact IH].
    apply starts_with_prefix in E. destruct E as [rest ->].
    rewrite forallb_app in Ht. apply andb_true_iff in Ht.
    destruct Ht as [Ht _]. congruence. }
  induction s as [|c s IH]; intro Hs; simpl; rewrite (Hat _ Hs); [reflexivity|].
  simpl in Hs. apply andb_true_iff in Hs. now apply IH.
Qed.

Lemma id_char_video_group c : id_char c = true -> video_group_char c = true.
Proof.
  destruct c as [[] [] [] [] [] [] [] []]; vm_compute; congruence.
Qed.

Lemma extractVideoId_some url id :
  extractVideoId url = Some id ->
  id <> [] /\ Forall (fun c => video_group_char c = true) id.
Proof.
  unfold extractVideoId.
  destruct (search _ video_group_char url) as [g|] eqn:E.
  - intros [= <-]. now apply search_some in E.
  - destruct ((length url =? 11) && forallb id_char url) eqn:H; [|discriminate].
    intros [= <-]. apply andb_true_iff in H. destruct H as [Hl Hc].
    apply Nat.eqb_eq in Hl. split.
    + intros ->. discriminate.
    + rewrite forallb_forall in Hc. apply Forall_forall.
      intros c Hin. now apply id_char_video_group, Hc.
Qed.

Lemma extractVideoId_watch_url id post :
  id <> [] -> Forall (fun c => video_group_char c = true) id ->
  separated video_group_char post ->
  extractVideoId (watch_url id ++ post) = Some id.
Proof.
  intros Hne Hid Hpost. unfold extractVideoId, watch_url.
  rewrite <- app_assoc.
  cbn -[video_group_char take_while nonempty].
  rewrite take_while_app by assumption.
  destruct id; [congruence | reflexivity].
Qed.

Lemma take_while_all cls g :
  Forall (fun c => cls c = true) g -> take_while cls g = g.
Proof.
  intro H. rewrite <- (app_nil_r g) at 1. now apply take_while_app.
Qed.

(** X9.  The address that [downloadSubtitle] reports for a video leads back
    to the video: whenever [extractVideoId] finds an identifier in a string,
    it finds the same identifier in the watch address built from it, also
    when further parameters follow; the identifier is never empty. *)
Theorem video_url_round_trip (url id post : jsstring) :
  extractVideoId url = Some id ->
  separated video_group_char post ->
  extractVideoId (watch_url id ++ post) = Some id /\ id <> [].
Proof.
  intros H Hpost. apply extractVideoId_some in H. destruct H as [Hne Hid].
  split; [now apply extractVideoId_watch_url | exact Hne].
Qed.

Lemma video_url_round_trip_witness :
  extractVideoId (watch_url (str "dQw4w9WgXcQ") ++ str "&t=10s")
  = Some (str "dQw4w9WgXcQ")
  /\ str "dQw4w9WgXcQ" <> [].
Proof.
  apply (video_url_round_trip (str "https://youtu.be/dQw4w9WgXcQ?t=42")
           (str "dQw4w9WgXcQ") (str "&t=10s")); reflexivity.
Defined.

(** X10.  A string without a slash contains none of the address patterns:
    it is accepted exactly when it consists of eleven characters among
    letters, digits, underscore and hyphen, and then it is returned as it
    is; otherwise the result is [null]. *)
Theorem bare_video_id (url : jsstring) :
  forallb (fun c => negb (Ascii.eqb c "/"%char)) url = true ->
  extractVideoId url
  = if (length url =? 11) && forallb id_char url then Some url else None.
Proof.
  intro H. unfold extractVideoId.
  rewrite (search_none (fun c => negb (Ascii.eqb c "/"%char)));
    [reflexivity | repeat constructor | exact H].
Qed.

Lemma bare_video_id_witness :
  extractVideoId (str "dQw4w9WgXcQ")
  = if (length (str "dQw4w9WgXcQ") =? 11) && forallb id_char (str "dQw4w9WgXcQ")
    then Some (str "dQw4w9WgXcQ") else None.
Proof. apply bare_video_id. reflexivity. Defined.

Lemma first_pattern_some ps cls url g :
  first_pattern ps cls url = Some g ->
  g <> [] /\ Forall (fun c => cls c = true) g.
Proof.
  induction ps as [|p ps IH]; cbn [first_pattern]; [discriminate|].
  destruct (search [p] cls url) as [g'|] eqn:E; [|exact IH].
  intros [= <-]. now apply search_some in E.
Qed.

Lemma channel_group_not_slash c :
  channel_group_char c = true -> negb (Ascii.eqb c "/"%char) = true.
Proof.
  destruct c as [[] [] [] [] [] [] [] []]; vm_compute; congruence.
Qed.

(** X11.  Each of the four forms of a channel address, with a name that is
    not empty and has no slash, question mark or ampersand, yields that
    name. *)
Theorem channel_url_forms (name : jsstring) :
  name <> [] -> Forall (fun c => channel_group_char c = true) name ->
  extractChannelId (str "https://www.youtube.com/@" ++ name) = Some name
  /\ extractChannelId (str "https://www.youtube.com/channel/" ++ name) = Some name
  /\ extractChannelId (str "https://www.youtube.com/c/" ++ name) = Some name
  /\ extractChannelId (str "https://www.youtube.com/user/" ++ name) = Some name.
Proof.
  intros Hne Hname.
  assert (Hnone : forall p,
             forallb (fun c => negb (Ascii.eqb c "/"%char)) p = false ->
             search [p] channel_group_char name = None).
  { intros p Hp.
    apply (search_none (fun c => negb (Ascii.eqb c "/"%char)));
      [now repeat constructor|].
    apply forallb_forall. intros c Hc. rewrite Forall_forall in Hname.
    now apply channel_group_not_slash, Hname. }
  assert (Hall : take_while channel_group_char name = name)
    by now apply take_while_all.
  assert (Hn : nonempty name = true) by (destruct name; [congruence | reflexivity]).
  unfold extractChannelId.
  repeat split;
    cbn -[channel_group_char take_while nonempty];
    rewrite ?Hnone by reflexivity;
    cbn -[channel_group_char take_while nonempty];
    rewrite Hall, Hn; reflexivity.
Qed.

Lemma channel_url_forms_witness :
  extractChannelId (str "https://www.youtube.com/@" ++ str "markets") = Some (str "markets")
  /\ extractChannelId (str "https://www.youtube.com/channel/" ++ str "markets")
     = Some (str "markets")
  /\ extractChannelId (str "https://www.youtube.com/c/" ++ str "markets")
     = Some (str "markets")
  /\ extractChannelId (str "https://www.youtube.com/user/" ++ str "markets")
     = Some (str "markets").
Proof.
  apply (channel_url_forms (str "markets")); [discriminate | repeat constructor].
Defined.

(** X12.  An identifier returned by [extractVideoId] is not empty and has
    no ampersand, line feed, question mark or hash sign; one returned by
    [extractChannelId] is not empty and has no slash, question mark or
    ampersand. *)
Theorem extracted_ids_well_formed (url : jsstring) :
  match extractVideoId url with
  | Some id => id <> [] /\ Forall (fun c => video_group_char c = true) id
  | None => True
  end
  /\ match extractChannelId url with
     | Some id => id <> [] /\ Forall (fun c => channel_group_char c = true) id
     | None => True
     end.
Proof.
  split.
  - destruct (extractVideoId url) eqn:E; [|exact I].
    now apply extractVideoId_some in E.
  - destruct (extractChannelId url) eqn:E; [|exact I].
    now apply first_pattern_some in E.
Qed.

(** * Properties of the caption parser *)

(** ** Removal of delimited markup *)

Section StripDelimited.

Variables opener closer : ascii.
Variable stop : ascii -> bool.
Hypothesis opener_not_closer : Ascii.eqb opener closer = false.
Hypothesis opener_not_stop : stop opener = false.

Local Abbreviation strip := (strip_delimited opener closer stop).

Lemma strip_subseq b s : subseq (strip b s) s.
Proof.
  revert b. induction s as [|c s IH]; intro b; simpl; [constructor|].
  destruct b; [constructor; apply IH|].
  destruct (Ascii.eqb c opener && closes closer stop s); constructor; apply IH.
Qed.

(** Stripping cannot bring a closer nearer. *)
Lemma closes_strip s :
  closes closer stop (strip false s) = true -> closes closer stop s = true.
Proof.
  induction s as [|c s IH]; simpl; [discriminate|].
  destruct (Ascii.eqb c opener) eqn:Eo; cbn [andb].
  - apply Ascii.eqb_eq in Eo. subst c.
    rewrite opener_not_closer, opener_not_stop.
    destruct (closes closer stop s) eqn:Ec; [reflexivity|].
    simpl. rewrite opener_not_closer, opener_not_stop. exact IH.
  - simpl. destruct (Ascii.eqb c closer); [reflexivity|].
    destruct (stop c); [discriminate | exact IH].
Qed.

Lemma strip_idempotent b s : strip false (strip b s) = strip b s.
Proof.
  revert b. induction s as [|c s IH]; intro b; simpl; [reflexivity|].
  destruct b; [apply IH|].
  destruct (Ascii.eqb c opener && closes closer stop s) eqn:E; [apply IH|].
  simpl.
  replace (Ascii.eqb c opener && closes closer stop (strip false s))
    with false; [f_equal; apply IH|].
  symmetry. apply andb_false_iff. apply andb_false_iff in E.
  destruct E as [E|E]; [now left | right].
  destruct (closes closer stop (strip false s)) eqn:Ec; [|reflexivity].
  apply closes_strip in Ec. congruence.
Qed.

Lemma strip_no_opener s :
  forallb (fun c => negb (Ascii.eqb c opener)) s = true -> strip false s = s.
Proof.
  induction s as [|c s IH]; simpl; [reflexivity|].
  intro H. apply andb_true_iff in H. destruct H as [Hc Hs].
  apply negb_true_iff in Hc. rewrite Hc. cbn [andb]. f_equal. now apply IH.
Qed.

End StripDelimited.

(** X13.  Stripping tags, bracketed asides and parenthesised asides only
    deletes characters, and stripping what has been stripped changes
    nothing: no tag or aside that the pattern matches is left behind. *)
Theorem markup_stripping (s : jsstring) :
  (subseq (strip_tags s) s /\ strip_tags (strip_tags s) = strip_tags s)
  /\ (subseq (strip_brackets s) s
      /\ strip_brackets (strip_brackets s) = strip_brackets s)
  /\ (subseq (strip_parens s) s
      /\ strip_parens (strip_parens s) = strip_parens s).
Proof.
  unfold strip_tags, strip_brackets, strip_parens.
  repeat split; try apply strip_subseq; now apply strip_idempotent.
Qed.

(** ** Lines and the header *)

Lemma split_lit_not_nil d s : split_lit d s <> [].
Proof.
  induction s as [|c s IH]; simpl; [discriminate|].
  destruct (Ascii.eqb c d); [discriminate|].
  destruct (split_lit d s); discriminate.
Qed.

Lemma split_lit_none d s : lacks d s = true -> split_lit d s = [s].
Proof.
  unfold lacks. induction s as [|c s IH]; simpl; [reflexivity|].
  intro H. apply andb_true_iff in H. destruct H as [Hc Hs].
  apply negb_true_iff in Hc. now rewrite Hc, IH.
Qed.

Lemma split_lit_app d w s :
  lacks d w = true -> split_lit d (w ++ d :: s) = w :: split_lit d s.
Proof.
  unfold lacks. induction w as [|c w IH]; simpl.
  - now rewrite Ascii.eqb_refl.
  - intro H. apply andb_true_iff in H. destruct H as [Hc Hw].
    apply negb_true_iff in Hc. now rewrite Hc, IH.
Qed.

(** Splitting at a character undoes joining with it. *)
Lemma split_lit_join d l ls :
  forallb (lacks d) (l :: ls) = true ->
  split_lit d (join [d] (l :: ls)) = l :: ls.
Proof.
  revert l. induction ls as [|l2 ls IH]; intros l H.
  - simpl in *. apply andb_true_iff in H. now apply split_lit_none.
  - cbn [forallb] in H. apply andb_true_iff in H. destruct H as [Hl Hls].
    rewrite join_cons2. cbn [app].
    rewrite split_lit_app by exact Hl. f_equal. now apply IH.
Qed.

Lemma skipn_length_app {A} (a b : list A) : skipn (length a) (a ++ b) = b.
Proof. induction a as [|x a IH]; simpl; [reflexivity | exact IH]. Qed.

Lemma find_header_end_app i hs blank_line body :
  forallb (fun l => nonempty (trim l)) hs = true ->
  nonempty (trim blank_line) = false ->
  0 < i + length hs ->
  find_header_end i (hs ++ blank_line :: body) = Some (i + length hs + 1).
Proof.
  intros Hhs Hb. revert i. induction hs as [|h hs IH]; intros i Hi; simpl in *.
  - rewrite Hb. replace (0 <? i) with true by (symmetry; apply Nat.ltb_lt; lia).
    simpl. f_equal. lia.
  - apply andb_true_iff in Hhs. destruct Hhs as [Hh Hhs].
    rewrite Hh. simpl. rewrite IH by (assumption || lia). f_equal. lia.
Qed.

(** X14.  Everything up to the first blank line after line 0 is taken for
    the header and ignored, whatever it says: when the header lines after
    the first are not blank, the result is the pipeline applied to the text
    lines of what follows the blank line. *)
Theorem vtt_header_skipped (h0 : jsstring) (hs : list jsstring)
    (blank_line : jsstring) (body : list jsstring) :
  forallb (lacks newline) (h0 :: hs ++ blank_line :: body) = true ->
  forallb (fun l => nonempty (trim l)) hs = true ->
  nonempty (trim blank_line) = false ->
  cleanVttContent (join [newline] (h0 :: hs ++ blank_line :: body))
  = removeDuplicateText (vtt_text_lines body).
Proof.
  intros Hnl Hhs Hb. unfold cleanVttContent.
  rewrite split_lit_join by exact Hnl.
  unfold startIndex. cbn [find_header_end Nat.ltb Nat.leb andb].
  rewrite andb_false_r.
  rewrite find_header_end_app by (assumption || lia).
  replace (1 + length hs + 1) with (S (length (hs ++ [blank_line])))
    by (rewrite length_app; simpl; lia).
  cbn [skipn].
  replace (hs ++ blank_line :: body) with ((hs ++ [blank_line]) ++ body)
    by now rewrite <- app_assoc.
  now rewrite skipn_length_app.
Qed.

Lemma vtt_header_skipped_witness :
  cleanVttContent
    (join [newline]
       (str "WEBVTT"
        :: [str "Kind: captions"; str "Language: en"]
        ++ str " "
        :: [str "1"; str "00:00:00.000 --> 00:00:02.000";
            str "stocks rallied today"]))
  = removeDuplicateText
      (vtt_text_lines
         [str "1"; str "00:00:00.000 --> 00:00:02.000";
          str "stocks rallied today"]).
Proof.
  apply (vtt_header_skipped (str "WEBVTT")
           [str "Kind: captions"; str "Language: en"] (str " ")
           [str "1"; str "00:00:00.000 --> 00:00:02.000";
            str "stocks rallied today"]);
    vm_compute; reflexivity.
Defined.

(** ** Lines without markup *)

Lemma replace_lit_absent a p rep s :
  lacks a s = true -> replace_lit (a :: p) rep 0 s = s.
Proof.
  unfold lacks. induction s as [|c s IH]; simpl; [reflexivity|].
  intro H. apply andb_true_iff in H. destruct H as [Hc Hs].
  apply negb_true_iff in Hc. rewrite Ascii.eqb_sym, Hc. simpl.
  f_equal. now apply IH.
Qed.

Lemma markup_free_lacks line :
  markup_free line = true ->
  lacks "<"%char line = true /\ lacks "&"%char line = true
  /\ lacks "["%char line = true /\ lacks "("%char line = true.
Proof.
  unfold markup_free, lacks. intro H. rewrite forallb_forall in H.
  repeat split; apply forallb_forall; intros c Hc; specialize (H c Hc);
    revert H; clear;
    destruct c as [[] [] [] [] [] [] [] []]; vm_compute; congruence.
Qed.

Lemma clean_line_markup_free line :
  markup_free line = true -> clean_line line = trim line.
Proof.
  intro H. apply markup_free_lacks in H. destruct H as [Ht [Ha [Hb Hp]]].
  unfold clean_line, strip_tags, strip_brackets, strip_parens, decode_entities.
  rewrite (strip_no_opener _ _ _ line) by exact Ht.
  change (str "&amp;") with ("&"%char :: str "amp;").
  change (str "&lt;") with ("&"%char :: str "lt;").
  change (str "&gt;") with ("&"%char :: str "gt;").
  change (str "&quot;") with ("&"%char :: str "quot;").
  change (str "&#39;") with ("&"%char :: str "#39;").
  rewrite !(replace_lit_absent _ _ _ line Ha).
  rewrite (strip_no_opener _ _ _ line) by exact Hb.
  now rewrite (strip_no_opener _ _ _ line) by exact Hp.
Qed.

Lemma trim_markup_free line :
  markup_free line = true -> markup_free (trim line) = true.
Proof.
  unfold markup_free. intro H. apply forallb_forall.
  assert (Hf : Forall (fun c => negb (markup_char c) = true) (trim line)).
  { apply trim_Forall, Forall_forall. now apply forallb_forall. }
  now apply Forall_forall.
Qed.

Lemma vtt_keep_markup_free raw :
  markup_free raw = true ->
  vtt_keep raw = if structural (trim raw) then None else Some (trim raw).
Proof.
  intro H. unfold vtt_keep, structural. cbn zeta.
  rewrite (clean_line_markup_free _ (trim_markup_free _ H)), trim_idempotent.
  destruct (includes (str "-->") (trim raw)); [reflexivity|].
  destruct (nonempty (trim raw)) eqn:Hn; [|reflexivity].
  cbn [negb orb].
  destruct (all_digits (trim raw)); [reflexivity|].
  cbn [orb].
  destruct (starts_with (str "NOTE") (trim raw) || starts_with (str "WEBVTT") (trim raw));
    reflexivity.
Qed.

(** X15.  From lines that contain none of the characters that begin a tag,
    an entity or an aside, the parser collects, trimmed and in their order,
    exactly those that are not blank, do not contain [-->], are not a
    number, and do not begin with [NOTE] or [WEBVTT]. *)
Theorem vtt_plain_lines_collected (lines : list jsstring) :
  forallb markup_free lines = true ->
  vtt_text_lines lines
  = map trim (filter (fun raw => negb (structural (trim raw))) lines).
Proof.
  induction lines as [|raw lines IH]; [reflexivity|].
  cbn [forallb vtt_text_lines filter]. intro H.
  apply andb_true_iff in H. destruct H as [Hraw Hlines].
  rewrite (vtt_keep_markup_free raw Hraw), (IH Hlines).
  destruct (structural (trim raw)); reflexivity.
Qed.

Lemma vtt_plain_lines_collected_witness :
  vtt_text_lines
    [str "1"; str "00:00:00.000 --> 00:00:02.000"; str "  stocks rallied today ";
     str ""; str "NOTE recorded live"; str "2"; str "bonds fell"]
  = map trim
      (filter (fun raw => negb (structural (trim raw)))
         [str "1"; str "00:00:00.000 --> 00:00:02.000";
          str "  stocks rallied today "; str ""; str "NOTE recorded live";
          str "2"; str "bonds fell"]).
Proof. apply vtt_plain_lines_collected. vm_compute. reflexivity. Defined.

(** * Properties of the listing parser and of [isSimilarSentence] *)

Lemma starts_ok_app s t : s <> [] -> starts_ok s -> starts_ok (s ++ t).
Proof. destruct s; [congruence | trivial]. Qed.

Lemma rev_not_nil {A} (s : list A) : s <> [] -> rev s <> [].
Proof.
  intros H E. apply (f_equal (@rev A)) in E. rewrite rev_involutive in E.
  now apply H.
Qed.

Lemma join_trimmed sep l ls :
  Forall trimmed (l :: ls) -> trimmed (join sep (l :: ls)).
Proof.
  revert l. induction ls as [|l2 ls IH]; intros l H;
    inversion H as [|? ? Hl Hls]; subst; [exact Hl|].
  destruct Hl as [Hne [Hs He]]. destruct (IH l2 Hls) as [Hne' [_ He']].
  rewrite join_cons2. split; [|split].
  - destruct l; [congruence | discriminate].
  - now apply starts_ok_app.
  - rewrite !rev_app_distr, <- app_assoc. apply starts_ok_app; [|exact He'].
    now apply rev_not_nil.
Qed.

Lemma trim_trimmed s : trimmed s -> trim s = s.
Proof. intros [_ [Hs He]]. now apply trim_fix. Qed.

Lemma trim_snoc_space s c :
  trimmed s -> is_space c = true -> trim (s ++ [c]) = s.
Proof.
  intros [Hne [Hs He]] Hc. unfold trim.
  rewrite (trimStart_fix (s ++ [c])) by now apply starts_ok_app.
  rewrite rev_app_distr. simpl. rewrite Hc.
  rewrite (trimStart_fix _ He). apply rev_involutive.
Qed.

Lemma not_space_not_newline c :
  negb (is_space c) = true -> negb (Ascii.eqb c newline) = true.
Proof.
  destruct c as [[] [] [] [] [] [] [] []]; vm_compute; congruence.
Qed.

Lemma plain_token_props s :
  plain_token s = true ->
  trimmed s /\ lacks "|"%char s = true /\ lacks newline s = true.
Proof.
  unfold plain_token. intro H.
  apply andb_true_iff in H. destruct H as [H Hbar].
  apply andb_true_iff in H. destruct H as [Hne Hsp].
  assert (Hf : Forall (fun c => is_space c = false) s).
  { apply Forall_forall. intros c Hc. rewrite forallb_forall in Hsp.
    now apply negb_true_iff, Hsp. }
  split; [|split; [exact Hbar|]].
  - split; [destruct s; [discriminate | congruence]|]. split.
    + destruct s as [|c s]; [exact I | now inversion Hf].
    + apply Forall_rev in Hf. destruct (rev s) as [|c r]; [exact I|].
      now inversion Hf.
  - unfold lacks. apply forallb_forall. intros c Hc.
    rewrite forallb_forall in Hsp. now apply not_space_not_newline, Hsp.
Qed.

Lemma lacks_app d a b : lacks d (a ++ b) = lacks d a && lacks d b.
Proof. apply forallb_app. Qed.

Lemma listing_line_props entry :
  well_formed_entry entry = true ->
  trimmed (listing_line entry)
  /\ lacks newline (listing_line entry) = true
  /\ parse_video_line (listing_line entry) = video_of entry.
Proof.
  destruct entry as [[id ttl] date]. unfold well_formed_entry.
  intro H.
  apply andb_true_iff in H. destruct H as [H H0].
  apply andb_true_iff in H. destruct H as [H H1].
  apply andb_true_iff in H. destruct H as [H H2].
  apply andb_true_iff in H. destruct H as [H H3].
  destruct (plain_token_props id H) as [[Hi1 [Hi2 Hi3]] [Hib Hin]].
  destruct (plain_token_props date H3) as [[Hd1 [Hd2 Hd3]] [Hdb Hdn]].
  unfold listing_line. rewrite !join_cons2. cbn [join app].
  split; [|split].
  - split; [destruct id; [congruence | discriminate]|]. split.
    + now apply starts_ok_app.
    + replace (id ++ "|"%char :: ttl ++ "|"%char :: date)
        with ((id ++ "|"%char :: ttl ++ ["|"%char]) ++ date)
        by (rewrite <- !app_assoc; cbn [app]; now rewrite <- app_assoc).
      rewrite rev_app_distr. apply starts_ok_app; [|exact Hd3].
      now apply rev_not_nil.
  - rewrite lacks_app. cbn [lacks forallb]. fold (lacks newline (ttl ++ "|"%char :: date)).
    rewrite lacks_app. cbn [lacks forallb]. fold (lacks newline date).
    rewrite Hin, H0, Hdn. reflexivity.
  - unfold parse_video_line.
    rewrite split_lit_app by exact Hib.
    rewrite split_lit_app by exact H1.
    rewrite split_lit_none by exact Hdb.
    unfold video_of. cbn [nth nth_error or_default].
    destruct ttl; [discriminate|]. destruct date; [congruence|]. reflexivity.
Qed.

(** X16.  The listing parser reads back what the listing command prints:
    for entries whose identifier and date are not empty and have no white
    space and no bar, and whose title is not empty and has no bar and no
    line feed, parsing the listing (one line [id|title|date] per entry,
    each ended by a line feed) gives the first [limit] entries, each with
    the watch address of its identifier. *)
Theorem listing_round_trip (entries : list (jsstring * jsstring * jsstring))
    (limit : nat) :
  forallb well_formed_entry entries = true ->
  parse_video_list (listing entries) limit
  = firstn limit (map video_of entries).
Proof.
  intro H. unfold parse_video_list, listing.
  destruct entries as [|e es]; [simpl; now rewrite !firstn_nil|].
  assert (Hall : Forall (fun e => trimmed (listing_line e)
                                  /\ lacks newline (listing_line e) = true
                                  /\ parse_video_line (listing_line e) = video_of e)
                   (e :: es)).
  { apply Forall_forall. intros x Hx. rewrite forallb_forall in H.
    now apply listing_line_props, H. }
  assert (Ht : Forall trimmed (map listing_line (e :: es))).
  { apply Forall_map. eapply Forall_impl; [|exact Hall]. now intros x [Hx _]. }
  assert (Hj : trimmed (join [newline] (map listing_line (e :: es))))
    by (apply (join_trimmed [newline] (listing_line e) (map listing_line es));
        exact Ht).
  assert (Hs : split_lit newline (join [newline] (map listing_line (e :: es)))
               = map listing_line (e :: es)).
  { apply (split_lit_join newline (listing_line e) (map listing_line es)).
    apply forallb_forall. intros l Hl.
    change (In l (map listing_line (e :: es))) in Hl.
    apply in_map_iff in Hl. destruct Hl as [x [<- Hx]].
    rewrite Forall_forall in Hall. now apply Hall. }
  cbv beta iota.
  rewrite (trim_snoc_space _ newline Hj) by reflexivity.
  rewrite Hs, forallb_filter_id.
  2:{ apply forallb_forall. intros l Hl. rewrite Forall_forall in Ht.
      specialize (Ht l Hl). rewrite (trim_trimmed l Ht).
      destruct Ht as [Hne _]. destruct l; [congruence | reflexivity]. }
  rewrite <- firstn_map, map_map. f_equal.
  apply map_ext_in. intros x Hx. rewrite Forall_forall in Hall.
  now apply Hall.
Qed.

Lemma listing_round_trip_witness :
  parse_video_list
    (listing [(str "dQw4w9WgXcQ", str "Markets today: a recap", str "20240105");
              (str "aBcDeFgHiJk", str "Rates", str "20240106");
              (str "zzzzzzzzzzz", str "Bonds and yields", str "20240107")]) 2
  = firstn 2
      (map video_of
         [(str "dQw4w9WgXcQ", str "Markets today: a recap", str "20240105");
          (str "aBcDeFgHiJk", str "Rates", str "20240106");
          (str "zzzzzzzzzzz", str "Bonds and yields", str "20240107")]).
Proof. apply listing_round_trip. vm_compute. reflexivity. Defined.

Lemma exceeds_ratio_one n : 1 <= n -> exceeds_threshold (ratio n n) = true.
Proof.
  intro Hn. apply exceeds_threshold_iff. unfold ratio, Qlt. cbn [Qnum Qden].
  rewrite <- (Znat.positive_nat_Z (Pos.of_nat n)), Nat2Pos.id by lia. lia.
Qed.

(** X17.  [isSimilarSentence] calls a sentence similar to any sentence
    among whose white-space pieces all of its own pieces occur, however
    many more pieces the other has; in particular to itself. *)
Theorem similar_when_contained (sentence1 sentence2 : jsstring) :
  forallb (fun word => existsb (jsstring_eqb word) (split is_space sentence2))
    (split is_space sentence1) = true ->
  isSimilarSentence sentence1 sentence2 = true
  /\ isSimilarSentence sentence1 sentence1 = true.
Proof.
  intro E.
  pose proof (length_split_re is_space false sentence1) as H1.
  pose proof (length_split_re is_space false sentence2) as H2.
  fold (split is_space sentence1) in H1. fold (split is_space sentence2) in H2.
  split.
  - unfold isSimilarSentence.
    destruct (jsstring_eqb sentence1 sentence2); [reflexivity|].
    replace ((length (split is_space sentence1) =? 0)
             || (length (split is_space sentence2) =? 0)) with false.
    2:{ symmetry. apply orb_false_iff. split; apply Nat.eqb_neq; lia. }
    rewrite (forallb_filter_id _ _ E).
    now rewrite exceeds_ratio_one by lia.
  - unfold isSimilarSentence. now rewrite jsstring_eqb_refl.
Qed.

Lemma similar_when_contained_witness :
  isSimilarSentence (str "rates held steady")
    (str "the fed said rates were held steady today") = true
  /\ isSimilarSentence (str "rates held steady") (str "rates held steady") = true.
Proof. apply similar_when_contained. vm_compute. reflexivity. Defined.
